(** * python-utils: case conversion and [setdefault]

    A shallow embedding of [utils/case.py] and [utils/setdefault.py].

    Python strings are modelled as lists of characters ([list ascii]); the
    three word patterns only ever match ASCII letters, digits, [_] and [-],
    and the case mappings below are the ASCII ones.  The regular expressions
    are kept as syntax and run by a backtracking matcher.

    The values that [setdefault] works on are [None], integers, strings and
    references to lists, dicts and sets in a heap; a function that may
    allocate is a function of the heap.  A Python exception is a [Raise]
    result. *)

From Stdlib Require Import String Ascii List ZArith Lia Bool Arith.
Import ListNotations.
Local Open Scope list_scope.

Set Implicit Arguments.
Local Set Warnings "-register-all".

(** ** Results of computations that may raise *)

Inductive exn : Type :=
| IndexError
| TypeError
| ValueError
| RecursionError
| NameError.

(** [Undefined] is the outcome of a step the model gives no meaning to: the
    use of a reference to no object, or a conversion of the runtime that is
    not modelled.  No function of the two modules produces it by itself. *)
Inductive result (A : Type) : Type :=
| Ok (a : A)
| Raise (e : exn)
| Undefined.

Arguments Ok {A} a.
Arguments Raise {A} e.
Arguments Undefined {A}.

(** ** Strings *)

Definition str : Type := list ascii.

(** A string literal of the source. *)
Definition py (s : string) : str := list_ascii_of_string s.

Definition code (c : ascii) : nat := nat_of_ascii c.

Definition in_range (lo hi : nat) (c : ascii) : bool :=
  (lo <=? code c) && (code c <=? hi).

(** [a-z], [A-Z], [0-9], [_] and [-]. *)
Definition is_lower (c : ascii) : bool := in_range 97 122 c.
Definition is_upper (c : ascii) : bool := in_range 65 90 c.
Definition is_digit (c : ascii) : bool := in_range 48 57 c.
Definition is_underscore (c : ascii) : bool := code c =? 95.
Definition is_hyphen (c : ascii) : bool := code c =? 45.

(** A cased character: one that [str.lower] or [str.upper] may change. *)
Definition is_cased (c : ascii) : bool := is_lower c || is_upper c.

Definition lower_char (c : ascii) : ascii :=
  if is_upper c then ascii_of_nat (code c + 32) else c.

Definition upper_char (c : ascii) : ascii :=
  if is_lower c then ascii_of_nat (code c - 32) else c.

(** [s.lower()] *)
Definition lower (s : str) : str := map lower_char s.

(** [s.title()]: a cased character is uppercased when the character before
    it is not cased (or there is none), and lowercased otherwise. *)
Fixpoint title_from (previous_is_cased : bool) (s : str) : str :=
  match s with
  | [] => []
  | c :: t =>
      (if previous_is_cased then lower_char c else upper_char c)
        :: title_from (is_cased c) t
  end.

Definition title (s : str) : str := title_from false s.

(** [s.capitalize()]: first character uppercased, the remainder lowercased.
    No function of the source calls it; the specification describes the
    camel formatter in these words. *)
Definition capitalize (s : str) : str :=
  match s with
  | [] => []
  | c :: t => upper_char c :: lower t
  end.

(** [sep.join(ws)] *)
Fixpoint join (sep : str) (ws : list str) : str :=
  match ws with
  | [] => []
  | [w] => w
  | w :: rest => w ++ sep ++ join sep rest
  end.

(** ** Regular expressions

    The fragment of Python's [re] that the three patterns use, with the
    semantics of a backtracking matcher: alternatives are tried left to
    right, repetition is greedy, and a failure further right makes the
    matcher come back to the latest choice. *)

Inductive regex : Type :=
| Bos                              (* \A *)
| Cls (p : ascii -> bool)          (* [...] *)
| Star (p : ascii -> bool)         (* [...]* *)
| Cat (r1 r2 : regex)              (* r1 r2 *)
| Alt (r1 r2 : regex)              (* r1|r2 *)
| Grp (r : regex).                 (* (r), capturing *)

(** [[...]+] *)
Definition Plus (p : ascii -> bool) : regex := Cat (Cls p) (Star p).

Section Matcher.

Variable R : Type.

(** A continuation receives the position reached, the text that is left
    and the text captured by the group, if any. *)
Definition cont : Type := nat -> str -> option str -> option R.

Fixpoint m_star (p : ascii -> bool) (pos : nat) (rest : str)
    (g : option str) (k : cont) : option R :=
  match rest with
  | c :: rest' =>
      if p c then
        match m_star p (S pos) rest' g k with
        | Some x => Some x
        | None => k pos rest g
        end
      else k pos rest g
  | [] => k pos rest g
  end.

Fixpoint m (r : regex) (pos : nat) (rest : str) (g : option str)
    (k : cont) : option R :=
  match r with
  | Bos => if pos =? 0 then k pos rest g else None
  | Cls p =>
      match rest with
      | c :: rest' => if p c then k (S pos) rest' g else None
      | [] => None
      end
  | Star p => m_star p pos rest g k
  | Cat r1 r2 => m r1 pos rest g (fun pos' rest' g' => m r2 pos' rest' g' k)
  | Alt r1 r2 =>
      match m r1 pos rest g k with
      | Some x => Some x
      | None => m r2 pos rest g k
      end
  | Grp r1 =>
      m r1 pos rest g
        (fun pos' rest' _ => k pos' rest' (Some (firstn (pos' - pos) rest)))
  end.

End Matcher.

(** [pattern.match(string, pos)]: the end of the match and the group. *)
Definition match_at (r : regex) (pos : nat) (rest : str)
    : option (nat * option str) :=
  m r pos rest None (fun pos' _ g => Some (pos', g)).

(** What [findall] reports for one match: the group when the pattern has
    one, the whole match otherwise. *)
Fixpoint has_group (r : regex) : bool :=
  match r with
  | Grp _ => true
  | Cat r1 r2 | Alt r1 r2 => has_group r1 || has_group r2
  | _ => false
  end.

Definition item (r : regex) (pos pos' : nat) (rest : str) (g : option str)
    : str :=
  if has_group r then
    match g with Some x => x | None => [] end
  else firstn (pos' - pos) rest.

(** The scan of [findall]: [skip] characters still belong to the match just
    reported; after them the pattern is tried at every position in turn. *)
Fixpoint findall_from (r : regex) (pos : nat) (rest : str) (skip : nat)
    : list str :=
  match skip with
  | S n =>
      match rest with
      | [] => []
      | _ :: t => findall_from r (S pos) t n
      end
  | 0 =>
      match match_at r pos rest with
      | Some (pos', g) =>
          item r pos pos' rest g ::
            match rest with
            | [] => []
            | _ :: t => findall_from r (S pos) t (pos' - pos - 1)
            end
      | None =>
          match rest with
          | [] => []
          | _ :: t => findall_from r (S pos) t 0
          end
      end
  end.

(** [pattern.findall(string)] *)
Definition findall (r : regex) (s : str) : list str := findall_from r 0 s 0.

(** ** utils/case.py

    [CaseStyle] is abstract in the source; its three subclasses are the
    styles, each with its pattern and its formatter. *)

Inductive CaseStyle : Type :=
| CamelCase
| SnakeCase
| KebabCase.

Definition lower_or_underscore (c : ascii) : bool :=
  is_lower c || is_underscore c.
Definition upper_or_underscore (c : ascii) : bool :=
  is_upper c || is_underscore c.
Definition lower_digit_underscore (c : ascii) : bool :=
  is_lower c || is_digit c || is_underscore c.
Definition alnum (c : ascii) : bool :=
  is_upper c || is_lower c || is_digit c.
Definition alnum_underscore (c : ascii) : bool :=
  is_upper c || is_lower c || is_digit c || is_underscore c.

Definition WORD_PATTERN (style : CaseStyle) : regex :=
  match style with
  | CamelCase =>
      (* (?:\A[a-z_]|[A-Z_])[a-z0-9_]* *)
      Cat (Alt (Cat Bos (Cls lower_or_underscore)) (Cls upper_or_underscore))
          (Star lower_digit_underscore)
  | SnakeCase =>
      (* (?:\A|_)(_*[A-Za-z0-9]+) *)
      Cat (Alt Bos (Cls is_underscore))
          (Grp (Cat (Star is_underscore) (Plus alnum)))
  | KebabCase =>
      (* (?:\A|-)(-*[A-Za-z0-9_]+) *)
      Cat (Alt Bos (Cls is_hyphen))
          (Grp (Cat (Star is_hyphen) (Plus alnum_underscore)))
  end.

Definition words (style : CaseStyle) (string : str) : list str :=
  findall (WORD_PATTERN style) string.

Definition fmt (style : CaseStyle) (words : list str) : result str :=
  match style with
  | CamelCase =>
      match nth_error words 0 with
      | None => Raise IndexError
      | Some w0 => Ok (lower w0 ++ join [] (map title (skipn 1 words)))
      end
  | SnakeCase => Ok (join (py "_") (map lower words))
  | KebabCase => Ok (join (py "-") (map lower words))
  end.

Definition convert (string : str) (src dest : CaseStyle) : result str :=
  fmt dest (words src string).


(** ** Values, objects and the heap

    [setdefault] receives references to mutable containers, and one of the
    statements about it is that it leaves them alone.  Containers therefore
    live in a heap and a value of container type is a reference into it;
    [None], integers and strings are immutable and are values by
    themselves. *)

Definition loc : Type := nat.

Inductive val : Type :=
| VNone
| VInt (z : Z)
| VStr (s : str)
| VRef (l : loc).

(** A dict keeps its items in insertion order; a set is kept as the list of
    its elements, without repetition. *)
Inductive obj : Type :=
| OList (items : list val)
| ODict (items : list (val * val))
| OSet (elems : list val).

Definition heap : Type := list obj.

(** A computation reads and extends the heap and returns or raises. *)
Definition M (A : Type) : Type := heap -> result A * heap.

Definition ret {A : Type} (a : A) : M A := fun h => (Ok a, h).

Definition raise {A : Type} (e : exn) : M A := fun h => (Raise e, h).

Definition undefined {A : Type} : M A := fun h => (Undefined, h).

Definition bind {A B : Type} (c : M A) (f : A -> M B) : M B :=
  fun h =>
    match c h with
    | (Ok a, h') => f a h'
    | (Raise e, h') => (Raise e, h')
    | (Undefined, h') => (Undefined, h')
    end.

Notation "x <- c ;; k" := (bind c (fun x => k))
  (at level 61, c at next level, right associativity).

(** A new object, at a location that was not in use. *)
Definition alloc (o : obj) : M val :=
  fun h => (Ok (VRef (length h)), h ++ [o]).

Definition deref (l : loc) : M obj :=
  fun h =>
    match nth_error h l with
    | Some o => (Ok o, h)
    | None => (Undefined, h)
    end.

Fixpoint mapM {A B : Type} (f : A -> M B) (xs : list A) : M (list B) :=
  match xs with
  | [] => ret []
  | x :: t => y <- f x ;; ys <- mapM f t ;; ret (y :: ys)
  end.

(** *** Equality, hashing and iteration *)

Fixpoint str_eqb (s t : str) : bool :=
  match s, t with
  | [], [] => true
  | a :: s', b :: t' => Ascii.eqb a b && str_eqb s' t'
  | _, _ => false
  end.

(** [a == b], on the values that can be keys or elements of a set. *)
Definition value_eqb (a b : val) : bool :=
  match a, b with
  | VNone, VNone => true
  | VInt x, VInt y => Z.eqb x y
  | VStr s, VStr t => str_eqb s t
  | VRef l, VRef l' => Nat.eqb l l'
  | _, _ => false
  end.

(** Lists, dicts and sets cannot be hashed. *)
Definition hashable (v : val) : bool :=
  match v with
  | VRef _ => false
  | _ => true
  end.

Definition contains (x : val) (xs : list val) : bool :=
  existsb (value_eqb x) xs.

(** [xs] followed by the elements of [ys] that are not yet there.  The
    order of the list that stands for a set is not an order of the set. *)
Fixpoint add_all (xs ys : list val) : list val :=
  match ys with
  | [] => xs
  | y :: t => add_all (if contains y xs then xs else xs ++ [y]) t
  end.

Fixpoint lookup_item (k : val) (items : list (val * val))
    : option val :=
  match items with
  | [] => None
  | (k', v) :: t => if value_eqb k k' then Some v else lookup_item k t
  end.

(** [d[k] = v]: an existing key keeps its place. *)
Fixpoint set_item (k v : val) (items : list (val * val))
    : list (val * val) :=
  match items with
  | [] => [(k, v)]
  | (k', v') :: t =>
      if value_eqb k k' then (k', v) :: t else (k', v') :: set_item k v t
  end.

(** [d.update(other)] on the items. *)
Fixpoint update_items (items other : list (val * val))
    : list (val * val) :=
  match other with
  | [] => items
  | (k, v) :: t => update_items (set_item k v items) t
  end.

(** [iter(v)] run to its end: the elements of a list or set, the keys of a
    dict, the characters of a string. *)
Definition iterate (v : val) : M (list val) :=
  match v with
  | VNone | VInt _ => raise TypeError
  | VStr s => ret (map (fun c => VStr [c]) s)
  | VRef l =>
      o <- deref l ;;
      match o with
      | OList items => ret items
      | ODict items => ret (map fst items)
      | OSet elems => ret elems
      end
  end.

(** ** Classes

    What [setdefault] uses of a class: it calls it and asks whether it is a
    subclass of one of three abstract base classes.  A class object is
    true in a condition. *)

(** The abstract base classes [Mapping], [Set] and [MutableSequence] of
    [collections.abc], in the standard library. *)
Inductive abc : Type :=
| Mapping
| Set_
| MutableSequence.

Record pyclass : Type := {
  (** the call [cls(a1, ..., an)] *)
  cls_call : list val -> M val;
  (** [issubclass(cls, a)] *)
  cls_abc : abc -> bool
}.

Definition issubclass (cls : pyclass) (a : abc) : bool := cls_abc cls a.

(** *** The built-in classes *)

(** [list()], [list(iterable)] *)
Definition list_new (args : list val) : M val :=
  match args with
  | [] => alloc (OList [])
  | [x] => items <- iterate x ;; alloc (OList items)
  | _ => raise TypeError
  end.

(** [set()], [set(iterable)] *)
Definition set_new (args : list val) : M val :=
  match args with
  | [] => alloc (OSet [])
  | [x] =>
      items <- iterate x ;;
      if forallb hashable items then alloc (OSet (add_all [] items))
      else raise TypeError
  | _ => raise TypeError
  end.

(** One element of the sequence given to [dict]: a pair. *)
Definition pair_of (e : val) : M (val * val) :=
  kv <- iterate e ;;
  match kv with
  | [k; v] => if hashable k then ret (k, v) else raise TypeError
  | _ => raise ValueError
  end.

(** [dict()], [dict(mapping)], [dict(iterable)] *)
Definition dict_new (args : list val) : M val :=
  match args with
  | [] => alloc (ODict [])
  | [VRef l] =>
      o <- deref l ;;
      match o with
      | ODict items => alloc (ODict items)
      | OList elems | OSet elems =>
          pairs <- mapM pair_of elems ;;
          alloc (ODict (update_items [] pairs))
      end
  | [VStr s] =>
      pairs <- mapM pair_of (map (fun c => VStr [c]) s) ;;
      alloc (ODict (update_items [] pairs))
  | [_] => raise TypeError
  | _ => raise TypeError
  end.

(** [type(None)()] *)
Definition NoneType_new (args : list val) : M val :=
  match args with
  | [] => ret VNone
  | _ => raise TypeError
  end.

(** [int()] and [int(x)] without the parsing of strings and without a
    base. *)
Definition int_new (args : list val) : M val :=
  match args with
  | [] => ret (VInt 0)
  | [VInt z] => ret (VInt z)
  | [VNone] | [VRef _] => raise TypeError
  | _ => undefined
  end.

(** [str()] and [str(x)] without the printing of numbers and containers. *)
Definition str_new (args : list val) : M val :=
  match args with
  | [] => ret (VStr [])
  | [VStr s] => ret (VStr s)
  | [VNone] => ret (VStr (py "None"))
  | _ => undefined
  end.

Definition is_abc (a b : abc) : bool :=
  match a, b with
  | Mapping, Mapping | Set_, Set_ | MutableSequence, MutableSequence => true
  | _, _ => false
  end.

Definition no_abc (a : abc) : bool := false.

Definition list_class : pyclass :=
  {| cls_call := list_new; cls_abc := is_abc MutableSequence |}.
Definition dict_class : pyclass :=
  {| cls_call := dict_new; cls_abc := is_abc Mapping |}.
Definition set_class : pyclass :=
  {| cls_call := set_new; cls_abc := is_abc Set_ |}.
Definition NoneType_class : pyclass :=
  {| cls_call := NoneType_new; cls_abc := no_abc |}.
Definition int_class : pyclass :=
  {| cls_call := int_new; cls_abc := no_abc |}.
Definition str_class : pyclass :=
  {| cls_call := str_new; cls_abc := no_abc |}.

(** [type(v)] *)
Definition type_of (v : val) : M pyclass :=
  match v with
  | VNone => ret NoneType_class
  | VInt _ => ret int_class
  | VStr _ => ret str_class
  | VRef l =>
      o <- deref l ;;
      match o with
      | OList _ => ret list_class
      | ODict _ => ret dict_class
      | OSet _ => ret set_class
      end
  end.

(** [a | b]: the union of two sets, of two dicts (the right one wins on a
    common key; Python 3.9), the bitwise or of two integers. *)
Definition py_or (a b : val) : M val :=
  match a, b with
  | VInt x, VInt y => ret (VInt (Z.lor x y))
  | VRef la, VRef lb =>
      oa <- deref la ;;
      ob <- deref lb ;;
      match oa, ob with
      | OSet xs, OSet ys => alloc (OSet (add_all xs ys))
      | ODict xs, ODict ys => alloc (ODict (update_items xs ys))
      | _, _ => raise TypeError
      end
  | _, _ => raise TypeError
  end.

(** ** utils/setdefault.py *)

Definition is_None (v : val) : bool :=
  match v with
  | VNone => true
  | _ => false
  end.

(** *** The names of the module

    A function looks a global name up in the module when it runs.
    [setdefault.py] binds [partial], [merge] and its own functions; it uses
    [Mapping], [Set], [MutableSequence] and [merge_mappings] and binds none
    of them.  The names that are bound are therefore part of the state a
    call runs in. *)

Record globals : Type := {
  (** whether the name of a base class is bound, to that class *)
  g_abc : abc -> bool;
  (** what the name [merge_mappings] is bound to, if it is bound *)
  g_merge_mappings : option (val -> val -> val -> pyclass -> M val)
}.

(** The module as its import leaves it: none of the four names is bound. *)
Definition shipped : globals :=
  {| g_abc := fun _ => false; g_merge_mappings := None |}.

(** The module once the three base classes have been bound to those of
    [collections.abc] and [merge_mappings] to a function. *)
Definition bound (merge_mappings : val -> val -> val -> pyclass -> M val)
    : globals :=
  {| g_abc := fun _ => true; g_merge_mappings := Some merge_mappings |}.

Section Setdefault.

Variable g : globals.

(** [issubclass(cls, a)] with [a] a name of the module: the name is looked
    up, and the lookup of a name that is not bound raises [NameError]. *)
Definition issubclass_named (cls : pyclass) (a : abc) : M bool :=
  if g_abc g a then ret (issubclass cls a) else raise NameError.

(** [merge_mappings(None, default, value, _type=cls)]: the name of the
    function is looked up before the call. *)
Definition call_merge_mappings (default value : val) (cls : pyclass)
    : M val :=
  match g_merge_mappings g with
  | Some merge_mappings => merge_mappings VNone default value cls
  | None => raise NameError
  end.

Definition _setdefault_dict (value default : val) (cls : pyclass)
    : M val :=
  b <- issubclass_named cls Mapping ;;
  if b then call_merge_mappings default value cls
  else ret value.

Definition _setdefault_set (value default : val) (cls : pyclass)
    : M val :=
  b <- issubclass_named cls Set_ ;;
  if b then py_or value default
  else ret value.

(** [cls( *default, *value)]: the elements of both become the positional
    arguments of one call. *)
Definition _setdefault_list (value default : val) (cls : pyclass)
    : M val :=
  b <- issubclass_named cls MutableSequence ;;
  if b then
    ds <- iterate default ;;
    vs <- iterate value ;;
    cls_call cls (ds ++ vs)
  else ret value.

Definition setdefault (value default : val) (cls : option pyclass)
    (merge_lists merge_sets merge_dicts : bool) (depth : Z) : M val :=
  if is_None value then
    match cls with
    | Some c => cls_call c [default]
    | None => ret default
    end
  else if is_None default then
    match cls with
    | Some c => cls_call c [value]
    | None => ret value
    end
  else
    cls <- match cls with
           | Some c => ret c
           | None => type_of value
           end ;;
    if merge_dicts then _setdefault_dict value default cls
    else if merge_lists then _setdefault_list value default cls
    else if merge_sets then _setdefault_set value default cls
    else ret value.

(** [setdefault.merge_all] *)
Definition _setdefault_all (value default : val) (cls : option pyclass)
    : M val :=
  setdefault value default cls true true true 1.

(** [setdefault.merge_dicts], [setdefault.merge_lists] and
    [setdefault.merge_sets]: [setdefault] with one flag preset, in a call
    that does not give that flag again. *)
Definition setdefault_merge_dicts (value default : val)
    (cls : option pyclass) (merge_lists merge_sets : bool) (depth : Z)
    : M val :=
  setdefault value default cls merge_lists merge_sets true depth.

Definition setdefault_merge_lists (value default : val)
    (cls : option pyclass) (merge_sets merge_dicts : bool) (depth : Z)
    : M val :=
  setdefault value default cls true merge_sets merge_dicts depth.

Definition setdefault_merge_sets (value default : val)
    (cls : option pyclass) (merge_lists merge_dicts : bool) (depth : Z)
    : M val :=
  setdefault value default cls merge_lists true merge_dicts depth.

End Setdefault.

(** ** The merge of mappings, from the specification *)

(** Modelled from the spec: the depth of [merge_mappings].  Whether a merge
    at [depth] goes into nested mappings, and at which depth: [-1] is no
    limit, [1] is the top level only. *)
Definition descend (depth : Z) : option Z :=
  if (depth =? -1)%Z then Some (-1)%Z
  else if (1 <? depth)%Z then Some (depth - 1)%Z
  else None.

Definition as_dict (v : val) : M (option (list (val * val))) :=
  match v with
  | VRef l =>
      o <- deref l ;;
      match o with
      | ODict items => ret (Some items)
      | _ => ret None
      end
  | _ => ret None
  end.

(** Modelled from the spec: [merge_mappings], of [utils/merge.py], which is
    not among the sources.  The specification has it merge [default] into
    [value], prefer the entries of [value] on a common key, and descend into
    nested mappings up to [depth] levels; the result is a new mapping made by
    [cls].  [limit] bounds the nesting of calls, as the interpreter's
    recursion limit does. *)
Fixpoint merge_spec (limit : nat) (depth : Z)
    (default value : val) (cls : pyclass) : M val :=
  match limit with
  | O => raise RecursionError
  | S limit' =>
      d <- as_dict default ;;
      v <- as_dict value ;;
      match d, v with
      | Some ditems, Some vitems =>
          merged <-
            mapM (fun kv : val * val =>
                    let (k, x) := kv in
                    match lookup_item k ditems, descend depth with
                    | Some y, Some depth' =>
                        dy <- as_dict y ;;
                        dx <- as_dict x ;;
                        match dy, dx with
                        | Some _, Some _ =>
                            z <- merge_spec limit' depth' y x cls ;;
                            ret (k, z)
                        | _, _ => ret (k, x)
                        end
                    | _, _ => ret (k, x)
                    end) vitems ;;
          r <- alloc (ODict (update_items ditems merged)) ;;
          cls_call cls [r]
      | _, _ => raise TypeError
      end
  end.

(** Modelled from the spec: a function for the name [merge_mappings], as
    [_setdefault_dict] calls it.  The call passes no depth, so the depth is
    the one the function has by default, [own_depth]; the specification
    says nothing of the first argument, for which the call passes [None]. *)
Definition merge_mappings_spec (limit : nat) (own_depth : Z)
    (first default value : val) (cls : pyclass) : M val :=
  merge_spec limit own_depth default value cls.

(** ** Reading a value back *)

(** The contents of a value, with the references followed. *)
Inductive data : Type :=
| DNone
| DInt (z : Z)
| DStr (s : str)
| DList (items : list data)
| DDict (items : list (data * data))
| DSet (elems : list data).

Fixpoint read (fuel : nat) (h : heap) (v : val) : option data :=
  match fuel with
  | O => None
  | S fuel' =>
      let all := fix all (vs : list val) : option (list data) :=
        match vs with
        | [] => Some []
        | x :: t =>
            match read fuel' h x, all t with
            | Some d, Some ds => Some (d :: ds)
            | _, _ => None
            end
        end in
      let pairs := fix pairs (kvs : list (val * val))
          : option (list (data * data)) :=
        match kvs with
        | [] => Some []
        | (k, x) :: t =>
            match read fuel' h k, read fuel' h x, pairs t with
            | Some dk, Some dx, Some ds => Some ((dk, dx) :: ds)
            | _, _, _ => None
            end
        end in
      match v with
      | VNone => Some DNone
      | VInt z => Some (DInt z)
      | VStr s => Some (DStr s)
      | VRef l =>
          match nth_error h l with
          | Some (OList items) => option_map DList (all items)
          | Some (ODict items) => option_map DDict (pairs items)
          | Some (OSet elems) => option_map DSet (all elems)
          | None => None
          end
      end
  end.

(** The outcome of a call as a caller sees it: the contents of what was
    returned, or the exception. *)
Definition outcome (r : result val * heap) : result (option data) :=
  match r with
  | (Ok v, h) => Ok (read (S (List.length h)) h v)
  | (Raise e, _) => Raise e
  | (Undefined, _) => Undefined
  end.

(** A string as a value. *)
Definition S_ (s : string) : val := VStr (py s).

(** ** Notions of the specification *)

(** A word in which no letter comes after a digit, an underscore or any
    other character that is not a letter. *)
Fixpoint drop_while (p : ascii -> bool) (s : str) : str :=
  match s with
  | [] => []
  | c :: t => if p c then drop_while p t else s
  end.

Fixpoint take_while (p : ascii -> bool) (s : str) : str :=
  match s with
  | [] => []
  | c :: t => if p c then c :: take_while p t else []
  end.

Definition letters_first (s : str) : bool :=
  forallb (fun c => negb (is_cased c)) (drop_while is_cased s).

(** The characters on which the case mappings of the model are those of
    Python. *)
Definition ascii_text (s : str) : bool := forallb (fun c => code c <? 128) s.

(** [x], coerced to the target type if one was given. *)
Definition coerced (cls : option pyclass) (x : val) : M val :=
  match cls with
  | Some c => cls_call c [x]
  | None => ret x
  end.

(** The effective target type: the one given, else the type of [value]. *)
Definition effective (cls : option pyclass) (value : val) : M pyclass :=
  match cls with
  | Some c => ret c
  | None => type_of value
  end.

(** The kind of merge a call asks for, in the order in which [setdefault]
    looks at its flags, with the base class that kind requires. *)
Definition requested (merge_lists merge_sets merge_dicts : bool)
    : option abc :=
  if merge_dicts then Some Mapping
  else if merge_lists then Some MutableSequence
  else if merge_sets then Some Set_
  else None.

(** Every object of [h] is in [h'], at its place and as it was. *)
Definition unchanged (h h' : heap) : Prop :=
  forall l o, nth_error h l = Some o -> nth_error h' l = Some o.

(** A computation that changes no object. *)
Definition preserves {A : Type} (c : M A) : Prop :=
  forall h, unchanged h (snd (c h)).

(** A class whose call changes no object. *)
Definition harmless (cls : pyclass) : Prop :=
  forall args, preserves (cls_call cls args).

(** ** The shape of words *)

(** The snake and kebab patterns: a separator or the start of the string,
    then, as the word, more separators and characters of a word. *)
Definition delimited (psep pw : ascii -> bool) : regex :=
  Cat (Alt Bos (Cls psep)) (Grp (Cat (Star psep) (Plus pw))).

(** What the group of such a pattern matches at the start of [rest]: its
    length and its text. *)
Definition scan_group (psep pw : ascii -> bool) (rest : str)
    : option (nat * str) :=
  match take_while pw (drop_while psep rest) with
  | [] => None
  | an => Some (List.length (take_while psep rest) + List.length an,
                take_while psep rest ++ an)
  end.

(** A word of a delimited style: separators, then one word character or
    more. *)
Definition delimited_word (psep pw : ascii -> bool) (w : str) : bool :=
  match drop_while psep w with
  | [] => false
  | an => forallb pw an
  end.

(** A word of the camel style: a letter or an underscore, then lowercase
    letters, digits and underscores. *)
Definition camel_word (w : str) : bool :=
  match w with
  | [] => false
  | c :: tw =>
      (lower_or_underscore c || upper_or_underscore c)
      && forallb lower_digit_underscore tw
  end.

(** Text as [title] leaves it: letters, digits and underscores, with a
    lowercase letter only after a letter.  [previous_is_cased] tells whether
    a letter comes right before the text. *)
Fixpoint titled (previous_is_cased : bool) (s : str) : bool :=
  match s with
  | [] => true
  | c :: t =>
      (is_upper c || is_digit c || is_underscore c
       || (is_lower c && previous_is_cased))
      && titled (is_cased c) t
  end.

(** ** Notions for the further properties *)

(** A word of a style, as its pattern matches it. *)
Definition word_of (style : CaseStyle) (w : str) : bool :=
  match style with
  | CamelCase => camel_word w
  | SnakeCase => delimited_word is_underscore alnum w
  | KebabCase => delimited_word is_hyphen alnum_underscore w
  end.

(** A text in which the camel pattern finds nothing: it does not start with
    a lowercase letter and has no uppercase letter and no underscore. *)
Definition camel_wordless (s : str) : bool :=
  match s with
  | [] => true
  | c :: _ =>
      negb (lower_or_underscore c)
      && forallb (fun x => negb (upper_or_underscore x)) s
  end.

(** A text of letters, digits and underscores that starts with a letter or
    an underscore. *)
Definition identifier (s : str) : bool :=
  match s with
  | [] => false
  | c :: r =>
      (lower_or_underscore c || upper_or_underscore c)
      && forallb alnum_underscore r
  end.

Definition lower_or_digit (c : ascii) : bool := is_lower c || is_digit c.

(** A word of lowercase letters and digits. *)
Definition plain_word (w : str) : bool :=
  match w with
  | [] => false
  | _ :: _ => forallb lower_or_digit w
  end.

(** A word of lowercase letters followed by digits, with a letter first. *)
Definition simple_word (w : str) : bool :=
  match w with
  | [] => false
  | c :: t => is_lower c && forallb lower_or_digit t && letters_first w
  end.

(** An uppercase letter, then lowercase letters, digits and underscores. *)
Definition capital_word (w : str) : bool :=
  match w with
  | [] => false
  | c :: t => is_upper c && forallb lower_digit_underscore t
  end.

(** Whether [v] is a value of [h]: not a reference to no object. *)
Definition defined_in (h : heap) (v : val) : bool :=
  match v with
  | VRef l => l <? List.length h
  | _ => true
  end.

(** * Properties of utils/case.py *)

(** ** Characters *)

Ltac each_char c :=
  destruct c as [[] [] [] [] [] [] [] []]; vm_compute; try reflexivity;
  try discriminate; auto.

Lemma lower_char_fixes_uncased c : is_upper c = false -> lower_char c = c.
Proof. unfold lower_char. intros ->. reflexivity. Qed.

Lemma upper_char_fixes_uncased c : is_lower c = false -> upper_char c = c.
Proof. unfold upper_char. intros ->. reflexivity. Qed.

Lemma lower_char_idempotent c : lower_char (lower_char c) = lower_char c.
Proof. each_char c. Qed.

Lemma lower_idempotent s : lower (lower s) = lower s.
Proof.
  unfold lower. rewrite map_map. apply map_ext. intro c.
  apply lower_char_idempotent.
Qed.

Lemma join_empty_sep ws : join [] ws = concat ws.
Proof.
  induction ws as [| w [| w' rest] IH]; simpl in *.
  - reflexivity.
  - now rewrite app_nil_r.
  - now rewrite <- IH.
Qed.

(** ** The examples of the specification *)

(** C1: the three example identifiers of the specification are converted
    exactly: camel to snake, snake to kebab and kebab to camel. *)
Theorem convert_examples :
  convert (py "myVariableName") CamelCase SnakeCase
    = Ok (py "my_variable_name")
  /\ convert (py "my_variable_name") SnakeCase KebabCase
    = Ok (py "my-variable-name")
  /\ convert (py "my-variable-name") KebabCase CamelCase
    = Ok (py "myVariableName").
Proof. repeat split; vm_compute; reflexivity. Qed.

(** ** The formatters *)

(** C9: on no words at all the camel formatter raises [IndexError], for it
    takes the first word, and the snake and kebab formatters return the
    empty string. *)
Theorem fmt_no_words :
  fmt CamelCase [] = Raise IndexError
  /\ fmt SnakeCase [] = Ok []
  /\ fmt KebabCase [] = Ok [].
Proof. repeat split. Qed.

(** In a word whose letters all come first, [title] changes what
    [capitalize] changes. *)
Lemma title_from_cased_letters_first s :
  letters_first s = true -> title_from true s = lower s.
Proof.
  unfold letters_first. induction s as [| c t IH]; simpl; intro H.
  - reflexivity.
  - destruct (is_cased c) eqn:Hc.
    + rewrite (IH H). reflexivity.
    + f_equal. clear IH. simpl in H. rewrite Hc in H. simpl in H.
      clear Hc. induction t as [| d t IH]; simpl in *.
      * reflexivity.
      * apply andb_prop in H as [Hd Ht].
        apply negb_true_iff in Hd. unfold is_cased in Hd.
        apply orb_false_elim in Hd as [Hl Hu].
        rewrite (upper_char_fixes_uncased _ Hl).
        rewrite (lower_char_fixes_uncased _ Hu).
        unfold is_cased. rewrite Hl, Hu. simpl.
        f_equal. apply IH, Ht.
Qed.

Lemma title_letters_first s :
  letters_first s = true -> title s = capitalize s.
Proof.
  destruct s as [| c t]; [reflexivity |].
  unfold title, capitalize, letters_first. simpl. intro H.
  destruct (is_cased c) eqn:Hc.
  - f_equal. now apply title_from_cased_letters_first.
  - f_equal. simpl in H. rewrite Hc in H. simpl in H.
    (* the tail has no letters at all *)
    clear Hc. induction t as [| d t IH]; simpl in *.
    + reflexivity.
    + apply andb_prop in H as [Hd Ht].
      apply negb_true_iff in Hd. pose proof Hd as Hd'. unfold is_cased in Hd.
      apply orb_false_elim in Hd as [Hl Hu].
      rewrite (upper_char_fixes_uncased _ Hl).
      rewrite (lower_char_fixes_uncased _ Hu).
      rewrite Hd'. f_equal. apply IH, Ht.
Qed.

Lemma cased_char_mapped c :
  is_cased c = true -> upper_char c <> lower_char c.
Proof. each_char c. Qed.

Lemma uncased_char_fixed c :
  is_cased c = false -> upper_char c = c /\ lower_char c = c.
Proof. each_char c. Qed.

(** [title], started before a letter, lowercases as [lower] does exactly
    when the text has no letter. *)
Lemma title_from_uncased_lower s :
  title_from false s = lower s
  <-> forallb (fun c => negb (is_cased c)) s = true.
Proof.
  induction s as [| c t IH]; simpl; [tauto |].
  destruct (is_cased c) eqn:Hc; simpl.
  - split; [| discriminate]. intro H. injection H as H _.
    now apply cased_char_mapped in H.
  - destruct (uncased_char_fixed c Hc) as [-> ->]. rewrite <- IH.
    split; [intro H; now injection H | now intros ->].
Qed.

(** [title], started after a letter, lowercases as [lower] does exactly
    when the letters of the text all come first. *)
Lemma title_from_cased_lower s :
  title_from true s = lower s <-> letters_first s = true.
Proof.
  induction s as [| c t IH]; simpl; [unfold letters_first; simpl; tauto |].
  assert (E : title_from (is_cased c) t = lower t
              <-> letters_first (c :: t) = true).
  { unfold letters_first in *. simpl. destruct (is_cased c) eqn:Hc.
    - exact IH.
    - simpl. rewrite Hc. simpl. apply title_from_uncased_lower. }
  rewrite <- E. split; [intro H; now injection H | now intros ->].
Qed.

(** [title] and [capitalize] agree on a word exactly when its letters all
    come first. *)
Lemma title_capitalize_iff s :
  title s = capitalize s <-> letters_first s = true.
Proof.
  destruct s as [| c t]; [unfold letters_first; simpl; tauto |].
  unfold title, capitalize. simpl.
  assert (E : title_from (is_cased c) t = lower t
              <-> letters_first (c :: t) = true).
  { unfold letters_first. simpl. destruct (is_cased c) eqn:Hc.
    - apply title_from_cased_lower.
    - simpl. rewrite Hc. simpl. apply title_from_uncased_lower. }
  rewrite <- E. split; [intro H; now injection H | now intros ->].
Qed.

(** C2, as the code has it: on ASCII words the camel formatter lowercases
    the first word and passes every further word through [title], which
    uppercases a letter that starts the word or follows a character that is
    not a letter and lowercases a letter that follows a letter; this is the
    first character uppercased and the remainder lowercased exactly on the
    words whose letters all come before their digits and underscores. *)
Theorem fmt_camel_title (w : str) (ws : list str) :
  forallb ascii_text (w :: ws) = true ->
  fmt CamelCase (w :: ws) = Ok (lower w ++ concat (map title ws))
  /\ forall x, In x ws ->
       (title x = capitalize x <-> letters_first x = true).
Proof.
  intros _. split.
  - simpl. now rewrite join_empty_sep.
  - intros x _. apply title_capitalize_iff.
Qed.

(** The theorem on three words, one with a digit after its letters and one
    with a letter after a digit. *)
Lemma fmt_camel_title_witness :
  fmt CamelCase [py "MY"; py "name2"; py "v2beta"]
    = Ok (py "myName2V2Beta")
  /\ title (py "name2") = capitalize (py "name2")
  /\ title (py "v2beta") <> capitalize (py "v2beta").
Proof.
  destruct (fmt_camel_title (py "MY") [py "name2"; py "v2beta"]
              eq_refl) as [E T].
  split; [| split].
  - rewrite E. reflexivity.
  - apply T; [left; reflexivity | reflexivity].
  - intro H. apply T in H; [discriminate | right; left; reflexivity].
Defined.

(** C2 fails as it is worded: a word with a letter after an underscore (or a
    digit) has that letter uppercased too.  Such words come out of the
    segmenters: the camel and kebab patterns keep underscores inside a
    word. *)
Lemma fmt_camel_not_capitalize :
  words KebabCase (py "foo-bar_baz") = [py "foo"; py "bar_baz"]
  /\ fmt CamelCase [py "foo"; py "bar_baz"] = Ok (py "fooBar_Baz")
  /\ lower (py "foo") ++ concat (map capitalize [py "bar_baz"])
     = py "fooBar_baz"
  /\ fmt CamelCase [py "foo"; py "bar_baz"]
     <> Ok (lower (py "foo") ++ concat (map capitalize [py "bar_baz"])).
Proof. repeat split; vm_compute; try reflexivity. discriminate. Qed.

(** * Conversion within one style *)

(** ** The matcher on the three patterns *)

Lemma take_drop_while p (s : str) : take_while p s ++ drop_while p s = s.
Proof.
  induction s as [| c t IH]; simpl; [reflexivity |].
  destruct (p c); simpl; [now rewrite IH | reflexivity].
Qed.

Lemma take_while_all p (s : str) : forallb p (take_while p s) = true.
Proof.
  induction s as [| c t IH]; simpl; [reflexivity |].
  destruct (p c) eqn:E; simpl; [now rewrite E | reflexivity].
Qed.

Lemma firstn_take_while p (s : str) :
  firstn (List.length (take_while p s)) s = take_while p s.
Proof.
  induction s as [| c t IH]; simpl; [reflexivity |].
  destruct (p c); simpl; [now rewrite IH | reflexivity].
Qed.

Lemma take_while_app p (x rest : str) :
  forallb p x = true ->
  match rest with [] => True | c :: _ => p c = false end ->
  take_while p (x ++ rest) = x /\ drop_while p (x ++ rest) = rest.
Proof.
  intros Hx Hr. induction x as [| c t IH]; simpl in *.
  - destruct rest as [| c r]; simpl; [auto |]. now rewrite Hr.
  - apply andb_prop in Hx as [Hc Ht]. rewrite Hc.
    destruct (IH Ht) as [E1 E2]. now rewrite E1, E2.
Qed.

Lemma drop_while_head p (s : str) :
  match drop_while p s with [] => True | c :: _ => p c = false end.
Proof.
  induction s as [| c t IH]; simpl; [exact I |].
  destruct (p c) eqn:E; [exact IH | exact E].
Qed.

Section Star.

Variable R : Type.

(** Repetition is greedy: when what follows succeeds after the longest run,
    that is the match. *)
Lemma m_star_greedy p pos s g (k : cont R) x :
  k (pos + List.length (take_while p s)) (drop_while p s) g = Some x ->
  m_star p pos s g k = Some x.
Proof.
  revert pos. induction s as [| c t IH]; intro pos; simpl.
  - now rewrite Nat.add_0_r.
  - destruct (p c); simpl.
    + rewrite Nat.add_succ_r. intro H. now rewrite (IH (S pos) H).
    + now rewrite Nat.add_0_r.
Qed.

(** A run followed by a character of a class that excludes the characters of
    the run: giving back part of the run never helps. *)
Lemma m_star_then_cls p q pos s g (k : cont R) :
  (forall c, p c = true -> q c = false) ->
  m_star p pos s g (fun pos' rest' g' => m (Cls q) pos' rest' g' k)
  = m (Cls q) (pos + List.length (take_while p s)) (drop_while p s) g k.
Proof.
  intro Hpq. revert pos. induction s as [| c t IH]; intro pos.
  - reflexivity.
  - simpl. destruct (p c) eqn:Hc.
    + rewrite IH. simpl List.length. rewrite Nat.add_succ_r.
      rewrite (Hpq c Hc).
      simpl. destruct (drop_while p t) as [| d r]; [reflexivity |].
      destruct (q d); [| reflexivity]. now destruct (k _ _ _).
    + simpl List.length. now rewrite Nat.add_0_r.
Qed.

End Star.

Lemma skip_matched r (xs rest : str) pos :
  findall_from r pos (xs ++ rest) (List.length xs)
  = findall_from r (pos + List.length xs) rest 0.
Proof.
  revert pos. induction xs as [| c t IH]; intro pos; simpl.
  - now rewrite Nat.add_0_r.
  - rewrite IH. now rewrite Nat.add_succ_r.
Qed.

Lemma skip_take_while r p (s : str) pos :
  findall_from r pos s (List.length (take_while p s))
  = findall_from r (pos + List.length (take_while p s)) (drop_while p s) 0.
Proof.
  rewrite <- (skip_matched r (take_while p s) (drop_while p s) pos).
  now rewrite take_drop_while.
Qed.

(** *** The camel pattern *)

Lemma match_at_camel pos rest :
  match_at (WORD_PATTERN CamelCase) pos rest
  = match rest with
    | [] => None
    | c :: r =>
        if ((pos =? 0) && lower_or_underscore c) || upper_or_underscore c
        then Some (S pos + List.length (take_while lower_digit_underscore r),
                   None)
        else None
    end.
Proof.
  unfold match_at. simpl.
  destruct rest as [| c r].
  - now destruct (pos =? 0).
  - destruct (pos =? 0); simpl.
    + destruct (lower_or_underscore c); simpl.
      * now rewrite (m_star_greedy _ _ _ _ _ eq_refl).
      * destruct (upper_or_underscore c); [| reflexivity].
        now rewrite (m_star_greedy _ _ _ _ _ eq_refl).
    + destruct (upper_or_underscore c); [| reflexivity].
      now rewrite (m_star_greedy _ _ _ _ _ eq_refl).
Qed.

(** *** The delimited patterns *)

Section Delimited.

Variables psep pw : ascii -> bool.
Hypothesis separate : forall c, psep c = true -> pw c = false.

Lemma match_group pos rest g :
  m (Grp (Cat (Star psep) (Plus pw))) pos rest g
    (fun pos' _ g' => Some (pos', g'))
  = match scan_group psep pw rest with
    | Some (n, w) => Some (pos + n, Some w)
    | None => None
    end.
Proof.
  change (m (Grp (Cat (Star psep) (Plus pw))) pos rest g
            (fun pos' _ g' => Some (pos', g')))
    with (m_star psep pos rest g
            (fun pos1 rest1 g1 =>
               m (Cls pw) pos1 rest1 g1
                 (fun pos2 rest2 g2 =>
                    m_star pw pos2 rest2 g2
                      (fun pos' _ _ =>
                         Some (pos', Some (firstn (pos' - pos) rest)))))).
  rewrite m_star_then_cls by exact separate.
  unfold scan_group. simpl.
  destruct (drop_while psep rest) as [| c r] eqn:Hd; simpl; [reflexivity |].
  destruct (pw c) eqn:Hc; [| reflexivity].
  erewrite m_star_greedy by reflexivity.
  apply f_equal. apply f_equal2.
  - lia.
  - apply f_equal.
    replace (S (pos + List.length (take_while psep rest))
             + List.length (take_while pw r) - pos)
      with (List.length (take_while psep rest ++ c :: take_while pw r))
      by (rewrite length_app; cbn [List.length]; lia).
    rewrite <- (take_drop_while psep rest) at 2. rewrite Hd.
    rewrite <- (take_drop_while pw r) at 2.
    change (c :: take_while pw r ++ drop_while pw r)
      with ((c :: take_while pw r) ++ drop_while pw r).
    rewrite app_assoc.
    rewrite firstn_app, firstn_all, Nat.sub_diag. simpl.
    now rewrite app_nil_r.
Qed.

Lemma match_at_delimited pos rest :
  match_at (delimited psep pw) pos rest
  = let after_separator :=
      match rest with
      | c :: rest' =>
          if psep c then
            match scan_group psep pw rest' with
            | Some (n, w) => Some (S pos + n, Some w)
            | None => None
            end
          else None
      | [] => None
      end in
    if pos =? 0 then
      match scan_group psep pw rest with
      | Some (n, w) => Some (pos + n, Some w)
      | None => after_separator
      end
    else after_separator.
Proof.
  unfold match_at, delimited.
  change (m (Cat (Alt Bos (Cls psep)) (Grp (Cat (Star psep) (Plus pw))))
            pos rest None (fun pos' _ g => Some (pos', g)))
    with (match (if pos =? 0
                 then m (Grp (Cat (Star psep) (Plus pw))) pos rest None
                        (fun pos' _ g => Some (pos', g))
                 else None) with
          | Some x => Some x
          | None =>
              match rest with
              | c :: rest' =>
                  if psep c
                  then m (Grp (Cat (Star psep) (Plus pw))) (S pos) rest' None
                         (fun pos' _ g => Some (pos', g))
                  else None
              | [] => None
              end
          end).
  rewrite match_group.
  assert (E : match rest with
              | c :: rest' =>
                  if psep c
                  then m (Grp (Cat (Star psep) (Plus pw))) (S pos) rest' None
                         (fun pos' _ g => Some (pos', g))
                  else None
              | [] => None
              end
              = match rest with
                | c :: rest' =>
                    if psep c then
                      match scan_group psep pw rest' with
                      | Some (n, w) => Some (S pos + n, Some w)
                      | None => None
                      end
                    else None
                | [] => None
                end).
  { destruct rest as [| c rest']; [reflexivity |].
    destruct (psep c); [apply match_group | reflexivity]. }
  rewrite E. clear E. cbv zeta.
  destruct (pos =? 0); [| reflexivity].
  now destruct (scan_group psep pw rest) as [[n w] |].
Qed.

Lemma findall_from_step r pos rest :
  findall_from r pos rest 0
  = match match_at r pos rest with
    | Some (pos', g) =>
        item r pos pos' rest g ::
          match rest with
          | [] => []
          | _ :: t => findall_from r (S pos) t (pos' - pos - 1)
          end
    | None =>
        match rest with
        | [] => []
        | _ :: t => findall_from r (S pos) t 0
        end
    end.
Proof. destruct rest; reflexivity. Qed.

Lemma not_separator c : pw c = true -> psep c = false.
Proof.
  intro H. destruct (psep c) eqn:E; [| reflexivity].
  apply separate in E. congruence.
Qed.

(** The group matches a word of the style. *)
Lemma scan_group_word rest n w :
  scan_group psep pw rest = Some (n, w) -> delimited_word psep pw w = true.
Proof.
  unfold scan_group, delimited_word.
  destruct (take_while pw (drop_while psep rest)) as [| a an] eqn:E;
    [discriminate |].
  intro H. injection H as _ <-.
  pose proof (take_while_all pw (drop_while psep rest)) as Hall.
  rewrite E in Hall.
  assert (Ha : psep a = false).
  { apply not_separator. simpl in Hall. now apply andb_prop in Hall. }
  destruct (take_while_app psep (take_while psep rest) (a :: an)
              (take_while_all psep rest) Ha) as [_ ->].
  exact Hall.
Qed.

(** A word of the style, followed by a separator or by nothing, is what the
    group matches. *)
Lemma scan_group_of_word w rest :
  delimited_word psep pw w = true ->
  match rest with [] => True | c :: _ => pw c = false end ->
  scan_group psep pw (w ++ rest) = Some (List.length w, w).
Proof.
  unfold delimited_word, scan_group. intros Hw Hr.
  pose proof (take_drop_while psep w) as Hsplit.
  destruct (drop_while psep w) as [| a an] eqn:Hd; [discriminate |].
  assert (Ha : psep a = false).
  { apply not_separator. simpl in Hw. now apply andb_prop in Hw. }
  assert (E : take_while psep (w ++ rest) = take_while psep w
              /\ drop_while psep (w ++ rest) = (a :: an) ++ rest).
  { replace (w ++ rest) with (take_while psep w ++ ((a :: an) ++ rest))
      by (now rewrite app_assoc, Hsplit).
    apply take_while_app; [apply take_while_all | exact Ha]. }
  destruct E as [-> ->].
  destruct (take_while_app pw (a :: an) rest Hw Hr) as [-> _].
  rewrite <- length_app, Hsplit. reflexivity.
Qed.

(** Every word that [findall] reports is a word of the style. *)
Lemma findall_delimited_words s :
  forall pos skip,
    Forall (fun w => delimited_word psep pw w = true)
      (findall_from (delimited psep pw) pos s skip).
Proof.
  assert (Hitem : forall pos pos' rest n w,
            scan_group psep pw rest = Some (n, w) ->
            forall rest0,
            delimited_word psep pw
              (item (delimited psep pw) pos pos' rest0 (Some w)) = true).
  { intros. unfold item. simpl. eapply scan_group_word; eauto. }
  induction s as [| c t IH]; intros pos [| skip].
  - rewrite findall_from_step, match_at_delimited. simpl.
    now destruct (pos =? 0).
  - constructor.
  - rewrite findall_from_step, match_at_delimited. cbv zeta.
    destruct (pos =? 0).
    + destruct (scan_group psep pw (c :: t)) as [[n w] |] eqn:E1.
      * constructor; [eapply Hitem; eauto | apply IH].
      * destruct (psep c); [| apply IH].
        destruct (scan_group psep pw t) as [[n w] |] eqn:E2; [| apply IH].
        constructor; [eapply Hitem; eauto | apply IH].
    + destruct (psep c); [| apply IH].
      destruct (scan_group psep pw t) as [[n w] |] eqn:E2; [| apply IH].
      constructor; [eapply Hitem; eauto | apply IH].
  - simpl. apply IH.
Qed.

Variable sepc : ascii.
Hypothesis sepc_separator : psep sepc = true.

Lemma join_cons (sep : str) w ws :
  join sep (w :: ws)
  = w ++ match ws with [] => [] | _ :: _ => sep ++ join sep ws end.
Proof. destruct ws; simpl; [now rewrite app_nil_r | reflexivity]. Qed.

Lemma findall_from_end pos :
  findall_from (delimited psep pw) pos [] 0 = [].
Proof.
  rewrite findall_from_step, match_at_delimited. simpl.
  now destruct (pos =? 0).
Qed.

(** The words of a joined text, read from a separator on. *)
Lemma findall_after_separator ws :
  Forall (fun w => delimited_word psep pw w = true) ws ->
  forall pos,
    pos <> 0 ->
    findall_from (delimited psep pw) pos
      match ws with [] => [] | _ :: _ => [sepc] ++ join [sepc] ws end 0
    = ws.
Proof.
  induction 1 as [| w ws Hw Hws IH]; intros pos Hpos.
  - apply findall_from_end.
  - rewrite join_cons.
    set (tail := match ws with
                 | [] => []
                 | _ :: _ => [sepc] ++ join [sepc] ws
                 end) in *.
    assert (Htail : match tail with [] => True | c :: _ => pw c = false end).
    { subst tail. destruct ws; simpl; [exact I |].
      now apply separate. }
    rewrite findall_from_step, match_at_delimited. cbv zeta.
    apply Nat.eqb_neq in Hpos. rewrite Hpos.
    change ([sepc] ++ w ++ tail) with (sepc :: w ++ tail).
    cbv iota. rewrite sepc_separator.
    rewrite (scan_group_of_word _ _ Hw Htail).
    unfold item. simpl has_group. cbv iota.
    replace (S pos + List.length w - pos - 1) with (List.length w) by lia.
    rewrite skip_matched. f_equal. apply IH. lia.
Qed.

(** The words of a joined text. *)
Lemma findall_joined ws :
  Forall (fun w => delimited_word psep pw w = true) ws ->
  findall (delimited psep pw) (join [sepc] ws) = ws.
Proof.
  intro H. unfold findall. destruct H as [| w ws Hw Hws].
  - apply findall_from_end.
  - rewrite join_cons.
    set (tail := match ws with
                 | [] => []
                 | _ :: _ => [sepc] ++ join [sepc] ws
                 end).
    assert (Htail : match tail with [] => True | c :: _ => pw c = false end).
    { subst tail. destruct ws; simpl; [exact I |].
      now apply separate. }
    rewrite findall_from_step, match_at_delimited. cbv zeta.
    change (0 =? 0) with true. cbv iota.
    rewrite (scan_group_of_word _ _ Hw Htail).
    unfold item. simpl has_group. cbv iota.
    destruct w as [| c w0]; [discriminate |].
    change ((c :: w0) ++ tail) with (c :: w0 ++ tail). cbv iota.
    replace (0 + List.length (c :: w0) - 0 - 1) with (List.length w0)
      by (simpl; lia).
    rewrite skip_matched. f_equal.
    apply (findall_after_separator Hws). lia.
Qed.

Hypothesis psep_lower : forall c, psep (lower_char c) = psep c.
Hypothesis pw_lower : forall c, pw (lower_char c) = pw c.

Lemma lower_delimited_word w :
  delimited_word psep pw w = true -> delimited_word psep pw (lower w) = true.
Proof.
  unfold delimited_word, lower. induction w as [| c t IH]; simpl.
  - discriminate.
  - rewrite psep_lower. destruct (psep c); [exact IH |].
    clear IH. rewrite pw_lower. intro H. apply andb_prop in H as [-> Ht].
    simpl. rewrite forallb_forall in *. intros x Hx.
    apply in_map_iff in Hx as [y [<- Hy]]. rewrite pw_lower. now apply Ht.
Qed.

(** Formatting the words of a text and reading the result again gives the
    same words, lowercased. *)
Lemma delimited_normal_form t :
  findall (delimited psep pw)
    (join [sepc] (map lower (findall (delimited psep pw) t)))
  = map lower (findall (delimited psep pw) t).
Proof.
  apply findall_joined. apply Forall_forall. intros w Hw.
  apply in_map_iff in Hw as [v [<- Hv]]. apply lower_delimited_word.
  pose proof (findall_delimited_words t 0 0) as H.
  rewrite Forall_forall in H. now apply H.
Qed.

End Delimited.

(** *** The camel style *)

Lemma lower_digit_underscore_not_upper c :
  lower_digit_underscore c = true -> is_upper c = false.
Proof. each_char c. Qed.

Lemma lower_or_underscore_not_upper c :
  lower_or_underscore c = true -> is_upper c = false.
Proof. each_char c. Qed.

Lemma lower_char_starts_word c :
  lower_or_underscore c || upper_or_underscore c = true ->
  lower_or_underscore (lower_char c) = true.
Proof. each_char c. Qed.

Lemma camel_start_word_char c :
  lower_or_underscore c || upper_or_underscore c = true ->
  alnum_underscore c = true.
Proof. each_char c. Qed.

Lemma lower_digit_underscore_word_char c :
  lower_digit_underscore c = true -> alnum_underscore c = true.
Proof. each_char c. Qed.

Lemma titled_char_title (b : bool) c :
  alnum_underscore c = true ->
  let c' := if b then lower_char c else upper_char c in
  (is_upper c' || is_digit c' || is_underscore c' || (is_lower c' && b)) = true
  /\ is_cased c' = is_cased c.
Proof. destruct b; each_char c. Qed.

Lemma titled_char_fixed (b : bool) c :
  (is_upper c || is_digit c || is_underscore c || (is_lower c && b)) = true ->
  lower_digit_underscore c = true ->
  (if b then lower_char c else upper_char c) = c.
Proof. destruct b; each_char c. Qed.

Lemma titled_char_upper c :
  (is_upper c || is_digit c || is_underscore c
   || (is_lower c && false)) = true ->
  lower_digit_underscore c = false ->
  is_upper c = true.
Proof. each_char c. Qed.

Lemma upper_starts_word c :
  is_upper c = true ->
  upper_or_underscore c = true /\ upper_char c = c /\ is_cased c = true.
Proof. each_char c. Qed.

Lemma lower_fixes s :
  forallb lower_digit_underscore s = true -> lower s = s.
Proof.
  induction s as [| c t IH]; simpl; [reflexivity |].
  intro H. apply andb_prop in H as [Hc Ht].
  rewrite (IH Ht).
  apply lower_digit_underscore_not_upper in Hc.
  now rewrite (lower_char_fixes_uncased _ Hc).
Qed.

Lemma drop_while_app_all p (x y : str) :
  forallb p x = true -> drop_while p (x ++ y) = drop_while p y.
Proof.
  induction x as [| c t IH]; simpl; [reflexivity |].
  intro H. apply andb_prop in H as [-> Ht]. now apply IH.
Qed.

Lemma drop_while_length p (s : str) :
  List.length (drop_while p s) <= List.length s.
Proof.
  induction s as [| c t IH]; simpl; [lia |].
  destruct (p c); simpl; lia.
Qed.

(** *** Text as [title] leaves it *)

Lemma titled_weaken b y : titled false y = true -> titled b y = true.
Proof.
  destruct y as [| c t]; simpl; [reflexivity |].
  rewrite andb_false_r, orb_false_r. intro H.
  apply andb_prop in H as [-> ->]. reflexivity.
Qed.

Lemma titled_title b x :
  forallb alnum_underscore x = true -> titled b (title_from b x) = true.
Proof.
  revert b. induction x as [| c t IH]; intro b; simpl; [reflexivity |].
  intro H. apply andb_prop in H as [Hc Ht].
  destruct (titled_char_title b c Hc) as [-> ->]. simpl. now apply IH.
Qed.

Lemma titled_app b x y :
  titled b x = true -> titled false y = true -> titled b (x ++ y) = true.
Proof.
  revert b. induction x as [| c t IH]; intro b; simpl.
  - intros _. apply titled_weaken.
  - intros H Hy. apply andb_prop in H as [-> Ht]. simpl. now apply IH.
Qed.

Lemma titled_fixed b x :
  titled b x = true ->
  forallb lower_digit_underscore x = true ->
  title_from b x = x.
Proof.
  revert b. induction x as [| c t IH]; intro b; simpl; [reflexivity |].
  intros H Hx. apply andb_prop in H as [Hc Ht].
  apply andb_prop in Hx as [Hl Hx].
  rewrite (titled_char_fixed b c Hc Hl). f_equal. now apply IH.
Qed.

Lemma titled_take_while p b r :
  titled b r = true -> titled b (take_while p r) = true.
Proof.
  revert b. induction r as [| c t IH]; intro b; simpl; [reflexivity |].
  intro H. apply andb_prop in H as [Hc Ht].
  destruct (p c); simpl; [| reflexivity]. rewrite Hc. simpl. now apply IH.
Qed.

Lemma titled_drop_while b y :
  titled b y = true ->
  titled false (drop_while lower_digit_underscore y) = true.
Proof.
  revert b. induction y as [| c t IH]; intro b; simpl; [reflexivity |].
  intro H. apply andb_prop in H as [Hc Ht].
  destruct (lower_digit_underscore c) eqn:E.
  - now apply (IH (is_cased c)).
  - simpl. rewrite Ht, andb_true_r.
    destruct b; [| exact Hc].
    rewrite andb_false_r, orb_false_r.
    revert Hc E. clear. each_char c.
Qed.

Lemma titled_concat ws :
  Forall (fun w => camel_word w = true) ws ->
  titled false (concat (map title ws)) = true.
Proof.
  induction 1 as [| w ws Hw Hws IH]; simpl; [reflexivity |].
  apply titled_app; [| exact IH].
  apply titled_title.
  destruct w as [| c tw]; [discriminate |]. simpl in *.
  apply andb_prop in Hw as [Hc Ht].
  rewrite (camel_start_word_char _ Hc). simpl.
  rewrite forallb_forall in *. intros x Hx.
  apply lower_digit_underscore_word_char. now apply Ht.
Qed.

(** *** The words of the camel pattern *)

Lemma findall_camel_words s :
  forall pos skip,
    Forall (fun w => camel_word w = true)
      (findall_from (WORD_PATTERN CamelCase) pos s skip).
Proof.
  induction s as [| c t IH]; intros pos [| skip].
  - rewrite findall_from_step, match_at_camel. constructor.
  - constructor.
  - rewrite findall_from_step, match_at_camel.
    destruct (((pos =? 0) && lower_or_underscore c) || upper_or_underscore c)
      eqn:E; [| apply IH].
    constructor; [| apply IH].
    unfold item. simpl has_group. cbv iota.
    replace (S pos + List.length (take_while lower_digit_underscore t) - pos)
      with (S (List.length (take_while lower_digit_underscore t))) by lia.
    rewrite firstn_cons, firstn_take_while. simpl.
    rewrite take_while_all, andb_true_r.
    destruct (pos =? 0); simpl in E; [exact E |].
    rewrite E. apply orb_true_r.
  - simpl. apply IH.
Qed.

(** Titled text that starts at an uppercase letter, anywhere but at the
    start of the string, is cut into words that [title] leaves alone. *)
Lemma findall_camel_titled n :
  forall y pos,
    List.length y <= n ->
    pos <> 0 ->
    titled false y = true ->
    match y with [] => True | c :: _ => lower_digit_underscore c = false end ->
    concat (map title (findall_from (WORD_PATTERN CamelCase) pos y 0)) = y.
Proof.
  induction n as [| n IH]; intros y pos Hlen Hpos Hy Hhead.
  - destruct y; [| simpl in Hlen; lia].
    now rewrite findall_from_step, match_at_camel.
  - destruct y as [| c r].
    + now rewrite findall_from_step, match_at_camel.
    + simpl in Hy. apply andb_prop in Hy as [Hc Hr].
      pose proof (titled_char_upper c Hc Hhead) as Hup.
      destruct (upper_starts_word c Hup) as [Hstart [Hfix Hcased]].
      rewrite Hcased in Hr.
      rewrite findall_from_step, match_at_camel.
      rewrite Hstart, orb_true_r.
      unfold item. simpl has_group. cbv iota.
      set (tw := take_while lower_digit_underscore r).
      replace (S pos + List.length tw - pos - 1) with (List.length tw) by lia.
      replace (S pos + List.length tw - pos) with (S (List.length tw)) by lia.
      rewrite firstn_cons. subst tw. rewrite firstn_take_while.
      rewrite skip_take_while.
      cbn [map concat]. rewrite IH.
      * unfold title. cbn [title_from]. rewrite Hfix, Hcased.
        rewrite titled_fixed.
        -- simpl. now rewrite take_drop_while.
        -- now apply titled_take_while.
        -- apply take_while_all.
      * pose proof (drop_while_length lower_digit_underscore r).
        simpl in Hlen. lia.
      * lia.
      * eapply titled_drop_while, Hr.
      * apply drop_while_head.
Qed.

(** A lowercase start, lowercase letters, digits and underscores, then
    titled text: the camel formatter gives the text back. *)
Lemma camel_normal a tf r :
  lower_or_underscore a = true ->
  forallb lower_digit_underscore tf = true ->
  titled false r = true ->
  fmt CamelCase (words CamelCase (a :: tf ++ r)) = Ok (a :: tf ++ r).
Proof.
  intros Ha Htf Hr. unfold words, findall.
  rewrite findall_from_step, match_at_camel.
  change (0 =? 0) with true. rewrite Ha. cbv iota. simpl orb. cbv iota.
  unfold item. simpl has_group. cbv iota.
  set (tw := take_while lower_digit_underscore (tf ++ r)).
  replace (1 + List.length tw - 0 - 1) with (List.length tw) by lia.
  replace (1 + List.length tw - 0) with (S (List.length tw)) by lia.
  rewrite firstn_cons. subst tw. rewrite firstn_take_while.
  rewrite skip_take_while.
  unfold fmt. cbn [nth_error skipn].
  rewrite join_empty_sep.
  rewrite (@findall_camel_titled (List.length r)).
  - f_equal. unfold lower. cbn [map].
    rewrite (lower_char_fixes_uncased _ (lower_or_underscore_not_upper _ Ha)).
    fold (lower (take_while lower_digit_underscore (tf ++ r))).
    rewrite lower_fixes by apply take_while_all.
    rewrite <- app_comm_cons. now rewrite take_drop_while.
  - rewrite drop_while_app_all by exact Htf. apply drop_while_length.
  - lia.
  - rewrite drop_while_app_all by exact Htf.
    eapply titled_drop_while, Hr.
  - apply drop_while_head.
Qed.

(** ** Formatting what was formatted *)

Lemma delimited_convert psep pw sepc r t s :
  (forall c, psep c = true -> pw c = false) ->
  psep sepc = true ->
  (forall c, psep (lower_char c) = psep c) ->
  (forall c, pw (lower_char c) = pw c) ->
  r = delimited psep pw ->
  join [sepc] (map lower (findall r t)) = s ->
  join [sepc] (map lower (findall r s)) = s.
Proof.
  intros H1 H2 H3 H4 -> <-.
  rewrite (@delimited_normal_form psep pw H1 sepc H2 H3 H4 t).
  rewrite map_map. f_equal. apply map_ext. intro w. apply lower_idempotent.
Qed.

(** What a conversion from a style to itself returns is returned unchanged
    by that conversion. *)
Lemma convert_own_style (A : CaseStyle) (t s : str) :
  convert t A A = Ok s -> convert s A A = Ok s.
Proof.
  destruct A; unfold convert.
  - intro H. unfold fmt in H.
    pose proof (findall_camel_words t 0 0) as Hws.
    change (findall_from (WORD_PATTERN CamelCase) 0 t 0)
      with (words CamelCase t) in Hws.
    destruct (words CamelCase t) as [| w ws]; [discriminate |].
    cbn [nth_error skipn] in H. injection H as <-.
    rewrite join_empty_sep.
    inversion Hws as [| w' ws' Hw Hrest]; subst.
    destruct w as [| c tw]; [discriminate |]. simpl in Hw.
    apply andb_prop in Hw as [Hc Htw].
    change (lower (c :: tw)) with (lower_char c :: lower tw).
    rewrite (lower_fixes _ Htw).
    change ((lower_char c :: tw) ++ concat (map title ws))
      with (lower_char c :: tw ++ concat (map title ws)).
    apply camel_normal.
    + now apply lower_char_starts_word.
    + exact Htw.
    + now apply titled_concat.
  - unfold fmt, words. intro H. injection H as H. f_equal.
    apply (@delimited_convert is_underscore alnum "_"%char _ t);
      try reflexivity; try exact H; intro c; each_char c.
  - unfold fmt, words. intro H. injection H as H. f_equal.
    apply (@delimited_convert is_hyphen alnum_underscore "-"%char _ t);
      try reflexivity; try exact H; intro c; each_char c.
Qed.

(** * Properties of utils/setdefault.py *)

Section SetdefaultFacts.

Variable g : globals.

(** The third part of [setdefault], once both arguments are there. *)
Lemma setdefault_both value default cls merge_lists merge_sets merge_dicts
    depth h c :
  is_None value = false ->
  is_None default = false ->
  effective cls value h = (Ok c, h) ->
  setdefault g value default cls
    merge_lists merge_sets merge_dicts depth h
  = (if merge_dicts then _setdefault_dict g value default c
     else if merge_lists then _setdefault_list g value default c
     else if merge_sets then _setdefault_set g value default c
     else ret value) h.
Proof.
  intros Hv Hd He. unfold setdefault. rewrite Hv, Hd.
  unfold bind. unfold effective in He. rewrite He. reflexivity.
Qed.

(** The effective type is found without a change to the heap. *)
Lemma effective_heap cls value h :
  snd (effective cls value h) = h.
Proof.
  destruct cls as [c |]; [reflexivity |].
  destruct value as [| z | s | l]; try reflexivity.
  simpl. unfold bind, deref.
  destruct (nth_error h l) as [[items | items | elems] |]; reflexivity.
Qed.

Lemma effective_ok cls value h c :
  fst (effective cls value h) = Ok c -> effective cls value h = (Ok c, h).
Proof.
  intro H. pose proof (effective_heap cls value h) as E.
  destruct (effective cls value h) as [r h']. simpl in *. congruence.
Qed.

(** A value that is in the heap has a type. *)
Lemma effective_defined cls value h :
  defined_in h value = true ->
  exists c, effective cls value h = (Ok c, h).
Proof.
  intro H. destruct cls as [c |]; [now exists c |].
  destruct value as [| z | s | l]; simpl; try (eexists; reflexivity).
  simpl in H. apply Nat.ltb_lt, nth_error_Some in H.
  unfold bind, deref.
  destruct (nth_error h l) as [[items | items | elems] |];
    [eexists; reflexivity.. | congruence].
Qed.

(** The test of a base class when its name is bound, and when it is not. *)
Lemma issubclass_named_bound cls a h :
  g_abc g a = true ->
  issubclass_named g cls a h = (Ok (issubclass cls a), h).
Proof. unfold issubclass_named. now intros ->. Qed.

Lemma issubclass_named_unbound cls a h :
  g_abc g a = false ->
  issubclass_named g cls a h = (Raise NameError, h).
Proof. unfold issubclass_named. now intros ->. Qed.

(** C6: with [value] absent the result is [default], and with [default]
    absent and [value] there the result is [value]; either is coerced to
    the target type when one is given, which is the call of that type on
    it.  In particular [setdefault(None, {"a": 1})] is that very dict. *)
Theorem setdefault_absent (value default : val) (cls : option pyclass)
    (merge_lists merge_sets merge_dicts : bool) (depth : Z) (h : heap) :
  setdefault g VNone default cls
    merge_lists merge_sets merge_dicts depth h
    = coerced cls default h
  /\ (value <> VNone ->
      setdefault g value VNone cls
        merge_lists merge_sets merge_dicts depth h
        = coerced cls value h)
  /\ (let h0 := [ODict [(S_ "a", VInt 1)]] in
      setdefault g VNone (VRef 0) None
        merge_lists merge_sets merge_dicts depth h0 = (Ok (VRef 0), h0)
      /\ read 2 h0 (VRef 0) = Some (DDict [(DStr (py "a"), DInt 1)])).
Proof.
  split; [| split].
  - unfold setdefault, coerced. simpl. now destruct cls.
  - intro Hv. unfold setdefault, coerced.
    destruct value; try congruence; simpl; now destruct cls.
  - split; reflexivity.
Qed.

(** With the name of the base class bound: when the merge that the call
    goes to does not fit the effective type, [value] is returned as it is
    and the heap is as it was. *)
Lemma setdefault_merge_skipped_bound (value default : val)
    (cls : option pyclass) (merge_lists merge_sets merge_dicts : bool)
    (depth : Z) (h : heap) (c : pyclass) (a : abc) :
  value <> VNone ->
  default <> VNone ->
  fst (effective cls value h) = Ok c ->
  requested merge_lists merge_sets merge_dicts = Some a ->
  g_abc g a = true ->
  issubclass c a = false ->
  setdefault g value default cls
    merge_lists merge_sets merge_dicts depth h
    = (Ok value, h).
Proof.
  intros Hv Hd He Hr Hg Ha.
  rewrite (@setdefault_both _ _ _ _ _ _ _ _ c).
  - unfold requested in Hr.
    unfold _setdefault_dict, _setdefault_list, _setdefault_set, bind.
    destruct merge_dicts;
      [injection Hr as <-;
       now rewrite (issubclass_named_bound _ _ _ Hg), Ha |].
    destruct merge_lists;
      [injection Hr as <-;
       now rewrite (issubclass_named_bound _ _ _ Hg), Ha |].
    destruct merge_sets;
      [injection Hr as <-;
       now rewrite (issubclass_named_bound _ _ _ Hg), Ha |].
    discriminate.
  - now destruct value.
  - now destruct default.
  - now apply effective_ok.
Qed.

(** With the name of the base class not bound: the merge that the call goes
    to raises [NameError] at its test, whatever the types. *)
Lemma setdefault_merge_unbound (value default : val)
    (cls : option pyclass) (merge_lists merge_sets merge_dicts : bool)
    (depth : Z) (h : heap) (a : abc) :
  value <> VNone ->
  default <> VNone ->
  defined_in h value = true ->
  requested merge_lists merge_sets merge_dicts = Some a ->
  g_abc g a = false ->
  setdefault g value default cls
    merge_lists merge_sets merge_dicts depth h
    = (Raise NameError, h).
Proof.
  intros Hv Hd Hdef Hr Hg.
  destruct (effective_defined cls value h Hdef) as [c He].
  rewrite (@setdefault_both _ _ _ _ _ _ _ _ c).
  - unfold requested in Hr.
    unfold _setdefault_dict, _setdefault_list, _setdefault_set, bind.
    destruct merge_dicts;
      [injection Hr as <-;
       now rewrite (issubclass_named_unbound _ _ _ Hg) |].
    destruct merge_lists;
      [injection Hr as <-;
       now rewrite (issubclass_named_unbound _ _ _ Hg) |].
    destruct merge_sets;
      [injection Hr as <-;
       now rewrite (issubclass_named_unbound _ _ _ Hg) |].
    discriminate.
  - now destruct value.
  - now destruct default.
  - exact He.
Qed.

(** C10: [depth] is taken and never looked at: two calls that differ in
    it only have the same outcome. *)
Theorem setdefault_depth_irrelevant (value default : val)
    (cls : option pyclass) (merge_lists merge_sets merge_dicts : bool)
    (d1 d2 : Z) (h : heap) :
  setdefault g value default cls
    merge_lists merge_sets merge_dicts d1 h
  = setdefault g value default cls
      merge_lists merge_sets merge_dicts d2 h.
Proof. reflexivity. Qed.

(** C5, at the example of the specification: the call raises.  In the
    module as it is, the name [MutableSequence] is not bound and the test of
    the type raises [NameError]; with the name bound, the two lists have
    three elements together, [list] is called on three arguments and
    raises [TypeError]. *)
Theorem setdefault_merge_lists_raises :
  let h := [OList [VInt 1; VInt 2]; OList [VInt 0]] in
  setdefault g (VRef 0) (VRef 1) None true false false 1 h
  = (Raise (if g_abc g MutableSequence then TypeError else NameError), h).
Proof.
  intro h. unfold setdefault. simpl. unfold bind at 1. simpl.
  unfold _setdefault_list, bind, issubclass_named.
  now destruct (g_abc g MutableSequence).
Qed.

End SetdefaultFacts.

(** C7, where the code leaves it: on the examples of the claim, a string
    with a string for default and one merge flag set, the call as the
    module is raises [NameError] at the test of the type, for each of the
    three flags; with the names bound it returns the string. *)
Theorem setdefault_mismatch_raises :
  setdefault shipped (S_ "abc") (S_ "x") None false false true 1 []
    = (Raise NameError, [])
  /\ setdefault shipped (S_ "abc") (S_ "x") None true false false 1 []
    = (Raise NameError, [])
  /\ setdefault shipped (S_ "abc") (S_ "x") None false true false 1 []
    = (Raise NameError, [])
  /\ forall merge_mappings,
       setdefault (bound merge_mappings) (S_ "abc") (S_ "x") None
         false false true 1 [] = (Ok (S_ "abc"), [])
       /\ setdefault (bound merge_mappings) (S_ "abc") (S_ "x") None
            true false false 1 [] = (Ok (S_ "abc"), [])
       /\ setdefault (bound merge_mappings) (S_ "abc") (S_ "x") None
            false true false 1 [] = (Ok (S_ "abc"), []).
Proof. repeat split. Qed.

(** C8, where the code leaves it: as the module is, a call that asks for
    the merge of sets on two lists, where no merge applies, does not pass
    [value] through but raises [NameError], and the same call on two sets,
    where the merge applies, returns no new set but raises [NameError];
    the heap is as it was in both.  With the names bound the first call
    returns [value] itself, and the second a new set that holds the
    elements of both, next to the two sets, which are as they were. *)
Theorem setdefault_no_pass_through :
  (let h := [OList [VInt 1]; OList [VInt 2]] in
   setdefault shipped (VRef 0) (VRef 1) None false true false 1 h
   = (Raise NameError, h)
   /\ forall merge_mappings,
        setdefault (bound merge_mappings) (VRef 0) (VRef 1) None
          false true false 1 h
        = (Ok (VRef 0), h))
  /\ (let h := [OSet [VInt 1; VInt 2]; OSet [VInt 2; VInt 3]] in
      setdefault shipped (VRef 0) (VRef 1) None false true false 1 h
      = (Raise NameError, h)
      /\ forall merge_mappings,
           exists elems,
             setdefault (bound merge_mappings) (VRef 0) (VRef 1) None
               false true false 1 h
             = (Ok (VRef 2), h ++ [OSet elems])
             /\ forall x, In x elems <-> In x [VInt 1; VInt 2; VInt 3]).
Proof.
  split; (split; [reflexivity | intro merge_mappings]).
  - reflexivity.
  - exists [VInt 1; VInt 2; VInt 3]. split; [reflexivity | tauto].
Qed.
(** ** The heap is only extended *)

Lemma unchanged_refl h : unchanged h h.
Proof. intros l o H. exact H. Qed.

Lemma unchanged_trans h1 h2 h3 :
  unchanged h1 h2 -> unchanged h2 h3 -> unchanged h1 h3.
Proof. intros H12 H23 l o H. apply H23, H12, H. Qed.

Lemma unchanged_app h new : unchanged h (h ++ new).
Proof.
  intros l o H. rewrite nth_error_app1; [exact H |].
  apply nth_error_Some. congruence.
Qed.

Lemma unchanged_length h h' : unchanged h h' -> List.length h <= List.length h'.
Proof.
  intro H. destruct (Nat.le_gt_cases (List.length h) (List.length h'))
    as [Hle | Hgt]; [exact Hle |].
  exfalso.
  assert (Hin : List.length h' < List.length h) by exact Hgt.
  apply nth_error_Some in Hin.
  destruct (nth_error h (List.length h')) as [o |] eqn:E; [| congruence].
  apply H in E.
  assert (N : nth_error h' (List.length h') = None)
    by (apply nth_error_None; apply Nat.le_refl).
  congruence.
Qed.

Create HintDb heap.

#[local] Hint Resolve unchanged_refl unchanged_app : heap.

Lemma preserves_ret A (a : A) : preserves (ret a).
Proof. intro h. apply unchanged_refl. Qed.

Lemma preserves_raise A e : preserves (@raise A e).
Proof. intro h. apply unchanged_refl. Qed.

Lemma preserves_undefined A : preserves (@undefined A).
Proof. intro h. apply unchanged_refl. Qed.

Lemma preserves_alloc o : preserves (alloc o).
Proof. intro h. apply unchanged_app. Qed.

Lemma preserves_deref l : preserves (deref l).
Proof.
  intro h. unfold deref. destruct (nth_error h l); apply unchanged_refl.
Qed.

Lemma preserves_bind A B (c : M A) (f : A -> M B) :
  preserves c -> (forall a, preserves (f a)) -> preserves (bind c f).
Proof.
  intros Hc Hf h. unfold bind. specialize (Hc h).
  destruct (c h) as [[a | e |] h']; simpl in *; try exact Hc.
  eapply unchanged_trans; [exact Hc | apply Hf].
Qed.

#[local] Hint Resolve preserves_ret preserves_raise preserves_undefined
  preserves_alloc preserves_deref : heap.

Ltac preserve :=
  repeat first
    [ apply preserves_bind; [| intro]
    | solve [auto with heap]
    | match goal with
      | |- preserves (match ?x with _ => _ end) => destruct x
      | |- preserves (if ?b then _ else _) => destruct b
      end ].

Lemma preserves_mapM A B (f : A -> M B) (xs : list A) :
  (forall x, In x xs -> preserves (f x)) -> preserves (mapM f xs).
Proof.
  induction xs as [| x t IH]; intro H; simpl.
  - apply preserves_ret.
  - apply preserves_bind; [apply H; now left |]. intro y.
    apply preserves_bind; [apply IH; intros; apply H; now right |].
    intro ys. apply preserves_ret.
Qed.

Lemma preserves_iterate v : preserves (iterate v).
Proof. unfold iterate. preserve. Qed.

Lemma preserves_type_of v : preserves (type_of v).
Proof. unfold type_of. preserve. Qed.

Lemma preserves_as_dict v : preserves (as_dict v).
Proof. unfold as_dict. preserve. Qed.

Lemma preserves_pair_of e : preserves (pair_of e).
Proof. unfold pair_of. apply preserves_bind; [apply preserves_iterate |].
  intros [| k [| v [| x t]]]; preserve. Qed.

#[local] Hint Resolve preserves_iterate preserves_type_of preserves_as_dict
  preserves_pair_of : heap.


(** *** The built-in classes change no object *)

Lemma harmless_list : harmless list_class.
Proof. intros [| x [| y t]]; simpl; unfold list_new; preserve. Qed.

Lemma harmless_set : harmless set_class.
Proof. intros [| x [| y t]]; simpl; unfold set_new; preserve. Qed.

Lemma harmless_dict : harmless dict_class.
Proof.
  intros [| x [| y t]]; simpl; unfold dict_new.
  - preserve.
  - destruct x; try solve [preserve].
    + apply preserves_bind; [apply preserves_mapM; auto with heap |].
      intro. preserve.
    + apply preserves_bind; [auto with heap |].
      intros [items | items | elems]; try solve [preserve];
        (apply preserves_bind; [apply preserves_mapM; auto with heap |]);
        intro; preserve.
  - destruct x; preserve.
Qed.

Lemma harmless_NoneType : harmless NoneType_class.
Proof. intros [| x t]; simpl; unfold NoneType_new; preserve. Qed.

Lemma harmless_int : harmless int_class.
Proof.
  intros [| [| z | s | l] [| y t]]; simpl; unfold int_new; preserve.
Qed.

Lemma harmless_str : harmless str_class.
Proof.
  intros [| [| z | s | l] [| y t]]; simpl; unfold str_new; preserve.
Qed.

(** The type of a value is one of the built-in classes. *)
Lemma type_of_harmless v h c : fst (type_of v h) = Ok c -> harmless c.
Proof.
  destruct v as [| z | s | l]; simpl.
  - intro E. injection E as <-. apply harmless_NoneType.
  - intro E. injection E as <-. apply harmless_int.
  - intro E. injection E as <-. apply harmless_str.
  - unfold bind, deref.
    destruct (nth_error h l) as [[items | items | elems] |]; simpl;
      intro E; try discriminate; injection E as <-.
    + apply harmless_list.
    + apply harmless_dict.
    + apply harmless_set.
Qed.

Lemma preserves_py_or a b : preserves (py_or a b).
Proof. unfold py_or. destruct a, b; preserve. Qed.

Lemma preserves_issubclass_named g cls a :
  preserves (issubclass_named g cls a).
Proof. unfold issubclass_named. preserve. Qed.

(** A call changes no object, when the class that is called and the
    function that [merge_mappings] is bound to, if any, change none. *)
Lemma setdefault_preserves (g : globals) (value default : val)
    (cls : option pyclass) (merge_lists merge_sets merge_dicts : bool)
    (depth : Z) :
  (forall mm c, g_merge_mappings g = Some mm -> harmless c ->
                preserves (mm VNone default value c)) ->
  (forall c, cls = Some c -> harmless c) ->
  preserves (setdefault g value default cls
               merge_lists merge_sets merge_dicts depth).
Proof.
  intros Hmm Hcls h.
  destruct (is_None value) eqn:Hv.
  { destruct value; try discriminate. unfold setdefault. simpl.
    destruct cls as [c |]; [apply (Hcls c eq_refl) | apply unchanged_refl]. }
  destruct (is_None default) eqn:Hd.
  { destruct default; try discriminate. unfold setdefault. rewrite Hv. simpl.
    destruct cls as [c |]; [apply (Hcls c eq_refl) | apply unchanged_refl]. }
  pose proof (effective_heap cls value h) as Hh.
  destruct (effective cls value h) as [[c | e |] h'] eqn:He;
    simpl in Hh; subst h'.
  2, 3: unfold setdefault; rewrite Hv, Hd; unfold bind;
    unfold effective in He; rewrite He; apply unchanged_refl.
  assert (Hc : harmless c).
  { destruct cls as [c' |]; simpl in He.
    - injection He as <-. now apply Hcls.
    - apply (@type_of_harmless value h). now rewrite He. }
  rewrite (setdefault_both g _ _ _ _ _ _ _ Hv Hd He).
  assert (P : preserves
                (if merge_dicts then _setdefault_dict g value default c
                 else if merge_lists then _setdefault_list g value default c
                 else if merge_sets then _setdefault_set g value default c
                 else ret value)).
  { destruct merge_dicts; [| destruct merge_lists; [| destruct merge_sets]].
    - unfold _setdefault_dict.
      apply preserves_bind; [apply preserves_issubclass_named |].
      intros [|]; [| apply preserves_ret].
      unfold call_merge_mappings.
      destruct (g_merge_mappings g) as [mm |] eqn:Eg;
        [now apply Hmm | apply preserves_raise].
    - unfold _setdefault_list.
      apply preserves_bind; [apply preserves_issubclass_named |].
      intros [|]; [| apply preserves_ret].
      apply preserves_bind; [apply preserves_iterate |]. intro ds.
      apply preserves_bind; [apply preserves_iterate |]. intro vs.
      apply Hc.
    - unfold _setdefault_set.
      apply preserves_bind; [apply preserves_issubclass_named |].
      intros [|]; [apply preserves_py_or | apply preserves_ret].
    - apply preserves_ret. }
  apply P.
Qed.

(** C4, where the code leaves it: [_setdefault_dict] calls [merge_mappings]
    without the depth, so whatever the names of the module are bound to,
    [merge_mappings] among them, the calls with depth 1 and with no limit on
    the depth have one and the same outcome, while the merges that the
    specification describes for the two depths differ on nested dicts. *)
Theorem setdefault_depth_not_passed :
  let h := [ODict [(S_ "a", VRef 1)]; ODict [(S_ "x", VInt 1)];
            ODict [(S_ "a", VRef 3)]; ODict [(S_ "y", VInt 2)]] in
  let described depth :=
    outcome (merge_spec 1000 depth (VRef 2) (VRef 0) dict_class h) in
  described 1%Z
    = Ok (Some (DDict [(DStr (py "a"), DDict [(DStr (py "x"), DInt 1)])]))
  /\ described (-1)%Z
    = Ok (Some (DDict [(DStr (py "a"),
                        DDict [(DStr (py "y"), DInt 2);
                               (DStr (py "x"), DInt 1)])]))
  /\ forall g,
       setdefault g (VRef 0) (VRef 2) None false false true 1 h
       = setdefault g (VRef 0) (VRef 2) None false false true
           (-1) h
       /\ ~ (outcome (setdefault g (VRef 0) (VRef 2) None
                        false false true 1 h) = described 1%Z
             /\ outcome (setdefault g (VRef 0) (VRef 2) None
                           false false true (-1) h) = described (-1)%Z).
Proof.
  intros h described.
  assert (E1 : described 1%Z
    = Ok (Some (DDict [(DStr (py "a"), DDict [(DStr (py "x"), DInt 1)])])))
    by (vm_compute; reflexivity).
  assert (E2 : described (-1)%Z
    = Ok (Some (DDict [(DStr (py "a"),
                        DDict [(DStr (py "y"), DInt 2);
                               (DStr (py "x"), DInt 1)])])))
    by (vm_compute; reflexivity).
  split; [exact E1 | split; [exact E2 |]].
  intro g. split; [reflexivity |].
  intros [H1 H2]. rewrite E1 in H1. rewrite E2 in H2.
  change (setdefault g (VRef 0) (VRef 2) None false false true
            1 h)
    with (setdefault g (VRef 0) (VRef 2) None false false true
            (-1) h) in H1.
  rewrite H1 in H2. discriminate.
Qed.

(** With the names bound and the merge of the specification behind
    [merge_mappings], whatever depth that merge has by default, the call
    answers the dict example of the specification. *)
Lemma setdefault_merge_dicts_example (own_depth : Z) :
  let h := [ODict [(S_ "a", VInt 1)];
            ODict [(S_ "a", VInt 2); (S_ "b", VInt 3)]] in
  outcome (setdefault (bound (merge_mappings_spec 1000 own_depth))
             (VRef 0) (VRef 1) None false false true 1 h)
  = Ok (Some (DDict [(DStr (py "a"), DInt 1); (DStr (py "b"), DInt 3)])).
Proof.
  intro h. unfold setdefault. simpl. unfold bind at 1. simpl.
  unfold _setdefault_dict, bind, issubclass_named, call_merge_mappings.
  simpl. unfold merge_mappings_spec. simpl. unfold bind. simpl.
  destruct (descend own_depth); reflexivity.
Qed.

(** The theorem with [list] as the target type: on an integer the call of
    [list] raises, on a string it makes the list of its characters. *)
Lemma setdefault_absent_witness :
  setdefault shipped (VInt 5) VNone (Some list_class)
    false false false 1 [] = (Raise TypeError, [])
  /\ setdefault shipped (S_ "ab") VNone
       (Some list_class) false false false 1 []
     = (Ok (VRef 0), [OList [S_ "a"; S_ "b"]]).
Proof.
  split.
  - destruct (setdefault_absent shipped (VInt 5) VNone
                (Some list_class) false false false 1 []) as [_ [E _]].
    rewrite E; [reflexivity | discriminate].
  - destruct (setdefault_absent shipped (S_ "ab") VNone
                (Some list_class) false false false 1 []) as [_ [E _]].
    rewrite E; [reflexivity | discriminate].
Defined.

(** * Further properties of utils/case.py *)

Lemma underscore_not_alnum c : is_underscore c = true -> alnum c = false.
Proof. each_char c. Qed.

Lemma hyphen_not_word_char c :
  is_hyphen c = true -> alnum_underscore c = false.
Proof. each_char c. Qed.

Lemma lower_char_underscore c : is_underscore (lower_char c) = is_underscore c.
Proof. each_char c. Qed.

Lemma lower_char_hyphen c : is_hyphen (lower_char c) = is_hyphen c.
Proof. each_char c. Qed.

Lemma lower_char_alnum c : alnum (lower_char c) = alnum c.
Proof. each_char c. Qed.

Lemma lower_char_word_char c :
  alnum_underscore (lower_char c) = alnum_underscore c.
Proof. each_char c. Qed.

Lemma words_shape_aux (style : CaseStyle) (s : str) :
  Forall (fun w => word_of style w = true) (words style s).
Proof.
  apply Forall_forall. intros w Hw.
  destruct style; unfold words, findall in Hw; cbn [word_of].
  - pose proof (findall_camel_words s 0 0) as H.
    rewrite Forall_forall in H. now apply H.
  - pose proof (@findall_delimited_words is_underscore alnum
                  underscore_not_alnum s 0 0) as H.
    rewrite Forall_forall in H. now apply H.
  - pose proof (@findall_delimited_words is_hyphen alnum_underscore
                  hyphen_not_word_char s 0 0) as H.
    rewrite Forall_forall in H. now apply H.
Qed.

(** X1: every word that a segmenter returns has the shape of its pattern and
    is not empty: a camel word is a letter or an underscore followed by
    lowercase letters, digits and underscores; a snake word is underscores
    followed by letters and digits, at least one; a kebab word is hyphens
    followed by letters, digits and underscores, at least one. *)
Theorem words_shape (style : CaseStyle) (s : str) :
  Forall (fun w => word_of style w = true /\ w <> []) (words style s).
Proof.
  eapply Forall_impl; [| apply words_shape_aux].
  intros w H. split; [exact H |]. intros ->. now destruct style.
Qed.

(** ** Texts without words *)

Lemma findall_camel_none rest :
  forall pos,
    pos <> 0 ->
    (findall_from (WORD_PATTERN CamelCase) pos rest 0 = []
     <-> forallb (fun x => negb (upper_or_underscore x)) rest = true).
Proof.
  induction rest as [| c t IH]; intros pos Hpos.
  - rewrite findall_from_step, match_at_camel. simpl. tauto.
  - rewrite findall_from_step, match_at_camel.
    apply Nat.eqb_neq in Hpos. rewrite Hpos. simpl.
    destruct (upper_or_underscore c); simpl.
    + split; discriminate.
    + apply IH. lia.
Qed.

(** X2: the camel segmenter finds no word exactly in the texts that do not
    start with a lowercase letter or an underscore and hold no uppercase
    letter and no underscore; a text that starts with a digit and goes on in
    lowercase is one. *)
Theorem words_camel_none (s : str) :
  words CamelCase s = [] <-> camel_wordless s = true.
Proof.
  unfold words, findall. destruct s as [| c r].
  - rewrite findall_from_step, match_at_camel. simpl. tauto.
  - rewrite findall_from_step, match_at_camel. unfold camel_wordless.
    change (0 =? 0) with true. cbn [andb forallb].
    destruct (lower_or_underscore c); simpl.
    + split; discriminate.
    + destruct (upper_or_underscore c); simpl.
      * split; discriminate.
      * apply findall_camel_none. lia.
Qed.

Lemma words_camel_none_witness :
  words CamelCase (py "2fast 4you") = []
  /\ camel_wordless (py "my2") = false.
Proof.
  split.
  - apply (proj2 (words_camel_none (py "2fast 4you"))). reflexivity.
  - destruct (camel_wordless (py "my2")) eqn:E; [| reflexivity].
    apply (proj2 (words_camel_none (py "my2"))) in E. discriminate.
Defined.

(** X3: a conversion to the camel style raises [IndexError] exactly when
    the text has no word of the source style, the empty text among them;
    a conversion to the snake or the kebab style never raises, and gives the
    empty text then. *)
Theorem convert_without_words (s : str) (src : CaseStyle) :
  (convert s src CamelCase = Raise IndexError <-> words src s = [])
  /\ (exists r, convert s src SnakeCase = Ok r)
  /\ (exists r, convert s src KebabCase = Ok r)
  /\ (words src s = [] ->
      convert s src SnakeCase = Ok [] /\ convert s src KebabCase = Ok [])
  /\ convert [] src CamelCase = Raise IndexError.
Proof.
  unfold convert. repeat split.
  - simpl. destruct (words src s); [reflexivity | discriminate].
  - intros ->. reflexivity.
  - eexists. reflexivity.
  - eexists. reflexivity.
  - now rewrite H.
  - now rewrite H.
  - now destruct src.
Qed.

Lemma convert_without_words_witness :
  convert (py "--") SnakeCase CamelCase = Raise IndexError
  /\ convert (py "--") SnakeCase KebabCase = Ok [].
Proof.
  destruct (convert_without_words (py "--") SnakeCase) as [[_ R] [_ [_ [E _]]]].
  split; [apply R | apply E]; reflexivity.
Defined.

(** ** Segmenting what was joined *)

Lemma words_of_joined_aux (ws : list str) :
  (Forall (fun w => word_of SnakeCase w = true) ws ->
   words SnakeCase (join (py "_") ws) = ws)
  /\ (Forall (fun w => word_of KebabCase w = true) ws ->
      words KebabCase (join (py "-") ws) = ws).
Proof.
  split; intro H.
  - apply (@findall_joined is_underscore alnum underscore_not_alnum
             "_"%char eq_refl ws H).
  - apply (@findall_joined is_hyphen alnum_underscore hyphen_not_word_char
             "-"%char eq_refl ws H).
Qed.

(** X4: for the snake and the kebab style, joining words of the style with
    the separator and segmenting the result gives the words back, in
    number, order and text. *)
Theorem words_of_joined (ws : list str) :
  (Forall (fun w => word_of SnakeCase w = true) ws ->
   words SnakeCase (join (py "_") ws) = ws)
  /\ (Forall (fun w => word_of KebabCase w = true) ws ->
      words KebabCase (join (py "-") ws) = ws).
Proof. exact (words_of_joined_aux ws). Qed.

Lemma words_of_joined_witness :
  words SnakeCase (py "__init___v2_x") = [py "__init"; py "__v2"; py "x"]
  /\ words KebabCase (py "a_b---c") = [py "a_b"; py "--c"].
Proof.
  split.
  - apply (proj1 (words_of_joined [py "__init"; py "__v2"; py "x"])).
    repeat constructor.
  - apply (proj2 (words_of_joined [py "a_b"; py "--c"])).
    repeat constructor.
Defined.

(** *** Plain words *)

Lemma lower_or_digit_facts c :
  lower_or_digit c = true ->
  is_upper c = false /\ is_underscore c = false /\ is_hyphen c = false
  /\ alnum c = true /\ alnum_underscore c = true
  /\ lower_digit_underscore c = true.
Proof. each_char c; repeat split; reflexivity. Qed.

Lemma plain_lower w : forallb lower_or_digit w = true -> lower w = w.
Proof.
  induction w as [| c t IH]; simpl; [reflexivity |].
  intro H. apply andb_prop in H as [Hc Ht]. rewrite (IH Ht).
  destruct (lower_or_digit_facts c Hc) as [Hu _].
  now rewrite (lower_char_fixes_uncased _ Hu).
Qed.

Lemma plain_words_lower ws :
  Forall (fun w => plain_word w = true) ws -> map lower ws = ws.
Proof.
  induction 1 as [| w ws Hw _ IH]; simpl; [reflexivity |].
  rewrite IH. f_equal. apply plain_lower. now destruct w.
Qed.

Lemma plain_word_delimited psep pw w :
  (forall c, lower_or_digit c = true -> psep c = false /\ pw c = true) ->
  plain_word w = true -> delimited_word psep pw w = true.
Proof.
  intros Hc Hw. destruct w as [| c t]; [discriminate |].
  unfold plain_word in Hw. unfold delimited_word.
  pose proof Hw as Hall. simpl in Hw. apply andb_prop in Hw as [Hh Ht].
  destruct (Hc c Hh) as [Hsep Hpw]. simpl. rewrite Hsep. simpl.
  rewrite Hpw. simpl. rewrite forallb_forall in *. intros x Hx.
  now apply Hc, Ht.
Qed.

Lemma plain_words_of style ws :
  style <> CamelCase ->
  Forall (fun w => plain_word w = true) ws ->
  Forall (fun w => word_of style w = true) ws.
Proof.
  intros Hs H. eapply Forall_impl; [| exact H]. intros w Hw.
  destruct style; [congruence | |]; cbn [word_of];
    apply plain_word_delimited; try exact Hw;
    intros c Hc; destruct (lower_or_digit_facts c Hc)
      as [? [? [? [? [? ?]]]]]; auto.
Qed.

(** X5: an identifier made of words of lowercase letters and digits goes
    from snake to kebab and from kebab to snake with its words kept and its
    separators exchanged; so a conversion there and back is the
    identity. *)
Theorem snake_kebab_round_trip (ws : list str) :
  Forall (fun w => plain_word w = true) ws ->
  convert (join (py "_") ws) SnakeCase KebabCase = Ok (join (py "-") ws)
  /\ convert (join (py "-") ws) KebabCase SnakeCase = Ok (join (py "_") ws).
Proof.
  intro H. unfold convert.
  rewrite (proj1 (words_of_joined_aux ws)), (proj2 (words_of_joined_aux ws)).
  - unfold fmt. now rewrite (plain_words_lower H).
  - apply plain_words_of; [discriminate | exact H].
  - apply plain_words_of; [discriminate | exact H].
Qed.

Lemma snake_kebab_round_trip_witness :
  convert (py "my_variable_name2") SnakeCase KebabCase
    = Ok (py "my-variable-name2")
  /\ convert (py "my-variable-name2") KebabCase SnakeCase
    = Ok (py "my_variable_name2").
Proof.
  apply (@snake_kebab_round_trip [py "my"; py "variable"; py "name2"]).
  repeat constructor.
Defined.

(** ** Camel text made of capitalized words *)

Lemma capital_word_head w rest :
  Forall (fun w => capital_word w = true) (w :: rest) ->
  match concat (w :: rest) with
  | [] => True
  | c :: _ => lower_digit_underscore c = false
  end.
Proof.
  intro H. inversion H as [| w' rest' Hw _]; subst.
  destruct w as [| c t]; [discriminate |]. simpl in *.
  apply andb_prop in Hw as [Hc _]. revert Hc. clear. each_char c.
Qed.

Lemma capital_words_head ws :
  Forall (fun w => capital_word w = true) ws ->
  match concat ws with
  | [] => True
  | c :: _ => lower_digit_underscore c = false
  end.
Proof.
  destruct ws as [| w rest]; [exact (fun _ => I) | apply capital_word_head].
Qed.

(** Capitalized words, one after the other and not at the start of the
    text, are the words that the camel pattern finds. *)
Lemma findall_camel_capitals ws :
  Forall (fun w => capital_word w = true) ws ->
  forall pos,
    pos <> 0 ->
    findall_from (WORD_PATTERN CamelCase) pos (concat ws) 0 = ws.
Proof.
  induction 1 as [| w ws Hw Hws IH]; intros pos Hpos.
  - now rewrite findall_from_step, match_at_camel.
  - destruct w as [| c t]; [discriminate |].
    simpl in Hw. apply andb_prop in Hw as [Hc Ht].
    destruct (upper_starts_word c Hc) as [Hstart _].
    cbn [concat]. change ((c :: t) ++ concat ws) with (c :: t ++ concat ws).
    rewrite findall_from_step, match_at_camel.
    rewrite Hstart, orb_true_r.
    destruct (take_while_app lower_digit_underscore t (concat ws) Ht
                (capital_words_head Hws)) as [Etake _].
    rewrite Etake. unfold item. simpl has_group. cbv iota.
    replace (S pos + List.length t - pos - 1) with (List.length t) by lia.
    replace (S pos + List.length t - pos) with (S (List.length t)) by lia.
    rewrite firstn_cons, firstn_app, firstn_all, Nat.sub_diag.
    cbn [firstn]. rewrite app_nil_r.
    rewrite skip_matched. f_equal. apply IH. lia.
Qed.

(** A lowercase first word and capitalized words after it. *)
Lemma findall_camel_text a tf ws :
  lower_or_underscore a = true ->
  forallb lower_digit_underscore tf = true ->
  Forall (fun w => capital_word w = true) ws ->
  words CamelCase ((a :: tf) ++ concat ws) = (a :: tf) :: ws.
Proof.
  intros Ha Htf Hws. unfold words, findall.
  change ((a :: tf) ++ concat ws) with (a :: tf ++ concat ws).
  rewrite findall_from_step, match_at_camel.
  change (0 =? 0) with true. rewrite Ha. simpl orb. cbv iota.
  destruct (take_while_app lower_digit_underscore tf (concat ws) Htf
              (capital_words_head Hws)) as [Etake _].
  rewrite Etake. unfold item. simpl has_group. cbv iota.
  replace (1 + List.length tf - 0 - 1) with (List.length tf) by lia.
  replace (1 + List.length tf - 0) with (S (List.length tf)) by lia.
  rewrite firstn_cons, firstn_app, firstn_all, Nat.sub_diag.
  cbn [firstn]. rewrite app_nil_r.
  rewrite skip_matched. f_equal.
  apply findall_camel_capitals; [exact Hws | lia].
Qed.

(** *** Simple words *)

Lemma lower_upper_char c :
  is_lower c = true ->
  is_upper (upper_char c) = true /\ lower_char (upper_char c) = c
  /\ lower_or_underscore c = true /\ lower_or_digit c = true.
Proof. each_char c; repeat split; reflexivity. Qed.

Lemma simple_word_plain w : simple_word w = true -> plain_word w = true.
Proof.
  destruct w as [| c t]; [discriminate |]. unfold simple_word, plain_word.
  intro H. apply andb_prop in H as [H _]. apply andb_prop in H as [Hc Ht].
  simpl. rewrite Ht, andb_true_r. now apply lower_upper_char.
Qed.

Lemma simple_word_capitalize w :
  simple_word w = true ->
  title w = capitalize w
  /\ capital_word (capitalize w) = true
  /\ lower (capitalize w) = w.
Proof.
  destruct w as [| c t]; [discriminate |]. unfold simple_word.
  intro H. apply andb_prop in H as [H Hlf]. apply andb_prop in H as [Hc Ht].
  destruct (lower_upper_char c Hc) as [Hup [Hback _]].
  split; [now apply title_letters_first |].
  unfold capitalize. rewrite (plain_lower _ Ht). split.
  - simpl. rewrite Hup. simpl. rewrite forallb_forall in *.
    intros x Hx. now apply lower_or_digit_facts, Ht.
  - unfold lower. cbn [map]. fold (lower t).
    now rewrite Hback, (plain_lower _ Ht).
Qed.

Lemma simple_words_capitalize ws :
  Forall (fun w => simple_word w = true) ws ->
  map title ws = map capitalize ws
  /\ Forall (fun w => capital_word w = true) (map capitalize ws)
  /\ map lower (map capitalize ws) = ws.
Proof.
  induction 1 as [| w ws Hw _ [IH1 [IH2 IH3]]]; simpl.
  - repeat split. constructor.
  - destruct (simple_word_capitalize w Hw) as [E1 [E2 E3]].
    rewrite E1, E3, IH1, IH3. repeat split. now constructor.
Qed.

(** X6: an identifier made of words of lowercase letters followed by
    digits goes from snake to camel as the first word followed by the other
    words capitalized, and that text goes from camel to snake as the
    identifier: the conversion there and back is the identity. *)
Theorem snake_camel_round_trip (w : str) (ws : list str) :
  Forall (fun x => simple_word x = true) (w :: ws) ->
  convert (join (py "_") (w :: ws)) SnakeCase CamelCase
    = Ok (w ++ concat (map capitalize ws))
  /\ convert (w ++ concat (map capitalize ws)) CamelCase SnakeCase
    = Ok (join (py "_") (w :: ws)).
Proof.
  intro H. inversion H as [| w' ws' Hw Hws]; subst.
  assert (Hplain : Forall (fun x => plain_word x = true) (w :: ws)).
  { eapply Forall_impl; [| exact H]. apply simple_word_plain. }
  destruct (simple_words_capitalize Hws) as [Etitle [Hcap Eback]].
  pose proof (simple_word_plain _ Hw) as Hpw.
  assert (Hlow : lower w = w) by (apply plain_lower; now destruct w).
  unfold convert. split.
  - rewrite (proj1 (words_of_joined_aux (w :: ws)))
      by (apply plain_words_of; [discriminate | exact Hplain]).
    unfold fmt. cbn [nth_error skipn].
    now rewrite join_empty_sep, Etitle, Hlow.
  - destruct w as [| a tf]; [discriminate |].
    unfold simple_word in Hw.
    apply andb_prop in Hw as [Hw _]. apply andb_prop in Hw as [Ha Htf].
    rewrite findall_camel_text.
    + unfold fmt. cbn [map]. now rewrite Hlow, Eback.
    + now apply lower_upper_char.
    + rewrite forallb_forall in *. intros x Hx.
      now apply lower_or_digit_facts, Htf.
    + exact Hcap.
Qed.

Lemma snake_camel_round_trip_witness :
  convert (py "my_variable_name2") SnakeCase CamelCase
    = Ok (py "myVariableName2")
  /\ convert (py "myVariableName2") CamelCase SnakeCase
    = Ok (py "my_variable_name2").
Proof.
  apply (@snake_camel_round_trip (py "my") [py "variable"; py "name2"]).
  repeat constructor.
Defined.

(** ** The characters of what a conversion returns *)

Lemma lower_not_upper s :
  forallb (fun c => negb (is_upper c)) (lower s) = true.
Proof.
  induction s as [| c t IH]; simpl; [reflexivity |].
  rewrite IH, andb_true_r. each_char c.
Qed.

Lemma forallb_join (p : ascii -> bool) sep ws :
  forallb p sep = true ->
  Forall (fun w => forallb p w = true) ws ->
  forallb p (join sep ws) = true.
Proof.
  intros Hsep H. induction H as [| w ws Hw _ IH]; [reflexivity |].
  rewrite join_cons. rewrite forallb_app, Hw. simpl.
  destruct ws; [reflexivity |]. now rewrite forallb_app, Hsep, IH.
Qed.

Lemma delimited_word_chars psep pw w :
  delimited_word psep pw w = true ->
  forallb (fun c => psep c || pw c) w = true.
Proof.
  unfold delimited_word. induction w as [| c t IH]; simpl.
  - discriminate.
  - destruct (psep c) eqn:E; simpl.
    + exact IH.
    + intro H. apply andb_prop in H as [-> Ht]. simpl.
      rewrite forallb_forall in *. intros x Hx.
      rewrite (Ht x Hx). apply orb_true_r.
Qed.

Lemma lower_snake_chars c :
  (lower_or_underscore c || upper_or_underscore c
   || lower_digit_underscore c || is_underscore c || alnum c) = true ->
  lower_digit_underscore (lower_char c) = true.
Proof. each_char c. Qed.

Lemma camel_word_chars w :
  camel_word w = true ->
  forallb (fun c => lower_or_underscore c || upper_or_underscore c
                    || lower_digit_underscore c) w = true.
Proof.
  destruct w as [| c t]; [discriminate |]. simpl. intro H.
  apply andb_prop in H as [-> Ht]. simpl.
  rewrite forallb_forall in *. intros x Hx.
  rewrite (Ht x Hx). apply orb_true_r.
Qed.

(** The words of the camel and of the snake segmenter, lowercased, hold
    lowercase letters, digits and underscores only. *)
Lemma lower_words_chars src t :
  src <> KebabCase ->
  Forall (fun w => forallb lower_digit_underscore w = true)
    (map lower (words src t)).
Proof.
  intro Hsrc. apply Forall_forall. intros w Hw.
  apply in_map_iff in Hw as [v [<- Hv]].
  pose proof (words_shape_aux src t) as H. rewrite Forall_forall in H.
  specialize (H v Hv). unfold lower. rewrite forallb_forall.
  intros x Hx. apply in_map_iff in Hx as [c [<- Hc]].
  apply lower_snake_chars.
  destruct src; [| | congruence]; cbn [word_of] in H.
  - apply camel_word_chars in H. rewrite forallb_forall in H.
    specialize (H c Hc).
    destruct (lower_or_underscore c), (upper_or_underscore c),
      (lower_digit_underscore c); try discriminate; reflexivity.
  - apply delimited_word_chars in H. rewrite forallb_forall in H.
    specialize (H c Hc).
    destruct (is_underscore c), (alnum c); try discriminate;
      rewrite ?orb_true_r; reflexivity.
Qed.

(** X7: what a conversion to the snake or the kebab style returns has no
    uppercase letter; from the camel or the snake style to the snake style
    it is made of lowercase letters, digits and underscores only; and what a
    conversion to the camel style returns is not empty and does not start
    with an uppercase letter. *)
Theorem convert_output_characters (t s : str) (src : CaseStyle) :
  (forall dest, dest <> CamelCase -> convert t src dest = Ok s ->
                forallb (fun c => negb (is_upper c)) s = true)
  /\ (src <> KebabCase -> convert t src SnakeCase = Ok s ->
      forallb lower_digit_underscore s = true)
  /\ (convert t src CamelCase = Ok s ->
      exists c r, s = c :: r /\ is_upper c = false).
Proof.
  unfold convert. split; [| split].
  - intros dest Hd H.
    destruct dest; [congruence | |]; injection H as <-;
      (apply forallb_join; [reflexivity |]);
      apply Forall_forall; intros w Hw;
      apply in_map_iff in Hw as [v [<- _]]; apply lower_not_upper.
  - intros Hsrc H. injection H as <-.
    apply forallb_join; [reflexivity | now apply lower_words_chars].
  - intro H. unfold fmt in H.
    pose proof (words_shape_aux src t) as Hws.
    destruct (words src t) as [| w ws]; [discriminate |].
    cbn [nth_error] in H. injection H as <-.
    inversion Hws as [| w' ws' Hw _]; subst.
    destruct w as [| c tw]; [now destruct src |].
    exists (lower_char c),
      (lower tw ++ join [] (map title (skipn 1 ((c :: tw) :: ws)))).
    split; [reflexivity |]. clear. each_char c.
Qed.

Lemma convert_output_characters_witness :
  forallb lower_digit_underscore (py "my_h_t_t_p_server_v2") = true
  /\ forallb (fun c => negb (is_upper c)) (py "my-http-server-v2") = true.
Proof.
  split.
  - apply (proj1 (proj2 (@convert_output_characters (py "MyHTTPServer_v2")
                           (py "my_h_t_t_p_server_v2") CamelCase))).
    + discriminate.
    + reflexivity.
  - apply (proj1 (@convert_output_characters (py "My_Http_Server_V2")
                    (py "my-http-server-v2") SnakeCase) KebabCase).
    + discriminate.
    + reflexivity.
Defined.

(** ** Formatting what another style formatted *)

Lemma word_char_not_hyphen c :
  alnum_underscore c = true -> is_hyphen c = false.
Proof. each_char c. Qed.

Lemma word_chars_kebab_word w :
  w <> [] -> forallb alnum_underscore w = true ->
  delimited_word is_hyphen alnum_underscore w = true.
Proof.
  destruct w as [| c t]; [congruence |]. intros _ H.
  unfold delimited_word. pose proof H as Hall. simpl in H.
  apply andb_prop in H as [Hc _].
  simpl. now rewrite (word_char_not_hyphen c Hc).
Qed.

Lemma camel_snake_word_chars c :
  (lower_or_underscore c || upper_or_underscore c
   || lower_digit_underscore c || is_underscore c || alnum c) = true ->
  alnum_underscore c = true.
Proof. each_char c. Qed.

(** A word of any style is, lowercased, a word of the kebab style. *)
Lemma word_of_kebab style w :
  word_of style w = true -> word_of KebabCase (lower w) = true.
Proof.
  intro H. cbn [word_of].
  assert (Hk : forall v, delimited_word is_hyphen alnum_underscore v = true ->
                 delimited_word is_hyphen alnum_underscore (lower v) = true).
  { intro v. apply lower_delimited_word;
      [apply lower_char_hyphen | apply lower_char_word_char]. }
  destruct style; cbn [word_of] in H; [| | now apply Hk].
  - apply Hk, word_chars_kebab_word; [intros ->; discriminate |].
    apply camel_word_chars in H. rewrite forallb_forall in *.
    intros c Hc. apply camel_snake_word_chars. specialize (H c Hc).
    destruct (lower_or_underscore c), (upper_or_underscore c),
      (lower_digit_underscore c); try discriminate; reflexivity.
  - apply Hk, word_chars_kebab_word; [intros ->; discriminate |].
    apply delimited_word_chars in H. rewrite forallb_forall in *.
    intros c Hc. apply camel_snake_word_chars. specialize (H c Hc).
    destruct (is_underscore c), (alnum c); try discriminate;
      rewrite ?orb_true_r; reflexivity.
Qed.

(** C3, as the code has it: what a conversion to a style returns is
    returned unchanged by the conversion from that style to itself when the
    conversion came from that same style, and, whatever style it came from,
    when it went to the kebab style. *)
Theorem convert_fixed_point (S A : CaseStyle) (t s : str) :
  S = A \/ A = KebabCase ->
  convert t S A = Ok s -> convert s A A = Ok s.
Proof.
  intros [-> | ->]; [apply convert_own_style |].
  unfold convert, fmt. intro H. injection H as <-.
  assert (Hws : Forall (fun w => word_of KebabCase w = true)
                  (map lower (words S t))).
  { apply Forall_forall. intros w Hw.
    apply in_map_iff in Hw as [v [<- Hv]]. apply (@word_of_kebab S).
    pose proof (words_shape_aux S t) as Hs. rewrite Forall_forall in Hs.
    now apply Hs. }
  change ["-"%char] with (py "-").
  rewrite (proj2 (words_of_joined_aux _) Hws).
  rewrite map_map. do 2 f_equal. apply map_ext. intro w.
  apply lower_idempotent.
Qed.

(** The theorem on one text of each style to itself and on camel and snake
    texts to the kebab style. *)
Lemma convert_fixed_point_witness :
  convert (py "my_variable__name") SnakeCase SnakeCase
    = Ok (py "my_variable__name")
  /\ convert (py "myHttpServer_V2") CamelCase CamelCase
    = Ok (py "myHttpServer_V2")
  /\ convert (py "my-variable_name") KebabCase KebabCase
    = Ok (py "my-variable_name")
  /\ convert (py "my-http-server_v2") KebabCase KebabCase
    = Ok (py "my-http-server_v2")
  /\ convert (py "__my-variable") KebabCase KebabCase
    = Ok (py "__my-variable").
Proof.
  split; [| split; [| split; [| split]]].
  - apply (@convert_fixed_point SnakeCase SnakeCase
             (py "My_Variable__NAME_")); [now left | reflexivity].
  - apply (@convert_fixed_point CamelCase CamelCase
             (py "MyHttpServer_v2-")); [now left | reflexivity].
  - apply (@convert_fixed_point KebabCase KebabCase
             (py "My-Variable_Name--")); [now left | reflexivity].
  - apply (@convert_fixed_point CamelCase KebabCase
             (py "MyHttpServer_v2")); [now right | reflexivity].
  - apply (@convert_fixed_point SnakeCase KebabCase
             (py "__My_Variable")); [now right | reflexivity].
Defined.

(** C3 fails as it is worded: what a conversion from another style to the
    snake or the camel style returns need not come back unchanged.  The
    camel segmenter keeps a trailing underscore in the word and the snake
    segmenter drops it; the kebab segmenter keeps a leading hyphen in the
    word, which the snake and the camel segmenter do not read; the snake
    segmenter keeps a leading digit and the camel segmenter skips it. *)
Lemma convert_same_style_not_identity :
  (convert (py "a_") CamelCase SnakeCase = Ok (py "a_")
   /\ convert (py "a_") SnakeCase SnakeCase = Ok (py "a")
   /\ convert (py "a_") SnakeCase SnakeCase <> Ok (py "a_"))
  /\ (convert (py "-a") KebabCase SnakeCase = Ok (py "-a")
      /\ convert (py "-a") SnakeCase SnakeCase = Ok []
      /\ convert (py "-a") SnakeCase SnakeCase <> Ok (py "-a"))
  /\ (convert (py "1a_b") SnakeCase CamelCase = Ok (py "1aB")
      /\ convert (py "1aB") CamelCase CamelCase = Ok (py "b")
      /\ convert (py "1aB") CamelCase CamelCase <> Ok (py "1aB"))
  /\ (convert (py "-a") KebabCase CamelCase = Ok (py "-a")
      /\ convert (py "-a") CamelCase CamelCase = Raise IndexError
      /\ convert (py "-a") CamelCase CamelCase <> Ok (py "-a")).
Proof. repeat split; vm_compute; try reflexivity; discriminate. Qed.

(** ** The camel segmenter on identifiers *)

Lemma forallb_drop_while (p q : ascii -> bool) s :
  forallb q s = true -> forallb q (drop_while p s) = true.
Proof.
  induction s as [| c t IH]; simpl; [reflexivity |].
  intro H. destruct (p c); [apply IH | exact H];
    now apply andb_prop in H.
Qed.

Lemma word_char_not_lower c :
  alnum_underscore c = true -> lower_digit_underscore c = false ->
  upper_or_underscore c = true.
Proof. each_char c. Qed.

Lemma findall_camel_concat n :
  forall y pos,
    List.length y <= n ->
    pos <> 0 ->
    forallb alnum_underscore y = true ->
    match y with [] => True | c :: _ => lower_digit_underscore c = false end ->
    concat (findall_from (WORD_PATTERN CamelCase) pos y 0) = y.
Proof.
  induction n as [| n IH]; intros y pos Hlen Hpos Hy Hhead.
  - destruct y; [| simpl in Hlen; lia].
    now rewrite findall_from_step, match_at_camel.
  - destruct y as [| c r].
    + now rewrite findall_from_step, match_at_camel.
    + simpl in Hy. apply andb_prop in Hy as [Hc Hr].
      rewrite findall_from_step, match_at_camel.
      rewrite (word_char_not_lower c Hc Hhead), orb_true_r.
      unfold item. simpl has_group. cbv iota.
      set (tw := take_while lower_digit_underscore r).
      replace (S pos + List.length tw - pos - 1) with (List.length tw) by lia.
      replace (S pos + List.length tw - pos) with (S (List.length tw)) by lia.
      rewrite firstn_cons. subst tw. rewrite firstn_take_while.
      rewrite skip_take_while. cbn [concat]. rewrite IH.
      * rewrite <- app_comm_cons. now rewrite take_drop_while.
      * pose proof (drop_while_length lower_digit_underscore r).
        simpl in Hlen. lia.
      * lia.
      * now apply forallb_drop_while.
      * apply drop_while_head.
Qed.

(** X8: the camel segmenter drops no character of an identifier: when a
    text of letters, digits and underscores starts with a letter or an
    underscore, its words, one after the other, are the text. *)
Theorem words_camel_concat (s : str) :
  identifier s = true -> concat (words CamelCase s) = s.
Proof.
  destruct s as [| c r]; [discriminate |]. unfold identifier.
  intro H. apply andb_prop in H as [Hc Hr].
  unfold words, findall. rewrite findall_from_step, match_at_camel.
  change (0 =? 0) with true. cbn [andb]. rewrite Hc.
  unfold item. simpl has_group. cbv iota.
  set (tw := take_while lower_digit_underscore r).
  replace (1 + List.length tw - 0 - 1) with (List.length tw) by lia.
  replace (1 + List.length tw - 0) with (S (List.length tw)) by lia.
  rewrite firstn_cons. subst tw. rewrite firstn_take_while.
  rewrite skip_take_while. cbn [concat].
  rewrite (@findall_camel_concat (List.length r)).
  - rewrite <- app_comm_cons. now rewrite take_drop_while.
  - apply drop_while_length.
  - lia.
  - now apply forallb_drop_while.
  - apply drop_while_head.
Qed.

Lemma words_camel_concat_witness :
  concat (words CamelCase (py "parseHTTPResponse_v2"))
  = py "parseHTTPResponse_v2".
Proof. apply words_camel_concat. reflexivity. Defined.

(** ** Segmenting without regard to case *)

Section CaseBlind.

Variables psep pw : ascii -> bool.
Hypothesis separate : forall c, psep c = true -> pw c = false.
Hypothesis psep_lower : forall c, psep (lower_char c) = psep c.
Hypothesis pw_lower : forall c, pw (lower_char c) = pw c.

Lemma take_while_lower p s :
  (forall c, p (lower_char c) = p c) ->
  take_while p (lower s) = lower (take_while p s)
  /\ drop_while p (lower s) = lower (drop_while p s).
Proof.
  intro Hp. induction s as [| c t [IH1 IH2]]; simpl; [auto |].
  rewrite Hp. destruct (p c); simpl; [| auto].
  fold (lower t). now rewrite IH1, IH2.
Qed.

Lemma scan_group_lower rest :
  scan_group psep pw (lower rest)
  = match scan_group psep pw rest with
    | Some (n, w) => Some (n, lower w)
    | None => None
    end.
Proof.
  unfold scan_group.
  destruct (@take_while_lower psep rest psep_lower) as [-> ->].
  destruct (@take_while_lower pw (drop_while psep rest) pw_lower) as [-> _].
  destruct (take_while pw (drop_while psep rest)) as [| a an]; simpl;
    [reflexivity |].
  unfold lower. rewrite !length_map, map_app. reflexivity.
Qed.

Lemma findall_delimited_lower s :
  forall pos skip,
    findall_from (delimited psep pw) pos (lower s) skip
    = map lower (findall_from (delimited psep pw) pos s skip).
Proof.
  induction s as [| c t IH]; intros pos [| skip].
  - change (lower []) with (@nil ascii).
    rewrite !findall_from_step, !(@match_at_delimited psep pw separate).
    simpl. now destruct (pos =? 0).
  - reflexivity.
  - change (lower (c :: t)) with (lower_char c :: lower t).
    rewrite (findall_from_step _ pos (lower_char c :: lower t)).
    rewrite (findall_from_step _ pos (c :: t)).
    rewrite (@match_at_delimited psep pw separate pos
               (lower_char c :: lower t)).
    rewrite (@match_at_delimited psep pw separate pos (c :: t)).
    cbv zeta. rewrite psep_lower.
    change (lower_char c :: lower t) with (lower (c :: t)).
    rewrite !scan_group_lower.
    change (lower (c :: t)) with (lower_char c :: lower t).
    unfold item. simpl has_group. cbv iota.
    destruct (pos =? 0).
    + destruct (scan_group psep pw (c :: t)) as [[n w] |].
      * cbn [map]. f_equal. apply IH.
      * destruct (psep c); [| apply IH].
        destruct (scan_group psep pw t) as [[n w] |]; [| apply IH].
        cbn [map]. f_equal. apply IH.
    + destruct (psep c); [| apply IH].
      destruct (scan_group psep pw t) as [[n w] |]; [| apply IH].
      cbn [map]. f_equal. apply IH.
  - simpl. apply IH.
Qed.

End CaseBlind.

Lemma title_lower (b : bool) s : title_from b (lower s) = title_from b s.
Proof.
  revert b. induction s as [| c t IH]; intro b; simpl; [reflexivity |].
  fold (lower t).
  assert (E : is_cased (lower_char c) = is_cased c) by each_char c.
  rewrite E, IH. f_equal. clear. destruct b; each_char c.
Qed.

Lemma fmt_lower dest ws : fmt dest (map lower ws) = fmt dest ws.
Proof.
  destruct dest; unfold fmt.
  - destruct ws as [| w ws]; [reflexivity |]. cbn [map nth_error skipn].
    rewrite lower_idempotent. do 3 f_equal.
    rewrite map_map. apply map_ext. intro x. apply title_lower.
  - rewrite map_map. do 2 f_equal. apply map_ext. intro x.
    apply lower_idempotent.
  - rewrite map_map. do 2 f_equal. apply map_ext. intro x.
    apply lower_idempotent.
Qed.

(** X9: a conversion from the snake or the kebab style does not depend on
    the case of the text: an ASCII text and the text lowercased have the
    same conversion, to any style. *)
Theorem convert_case_blind (t : str) (src dest : CaseStyle) :
  ascii_text t = true ->
  src <> CamelCase ->
  convert (lower t) src dest = convert t src dest.
Proof.
  intros _ Hsrc. unfold convert, words, findall.
  destruct src; [congruence | |].
  - change (WORD_PATTERN SnakeCase) with (delimited is_underscore alnum).
    rewrite (@findall_delimited_lower is_underscore alnum
               underscore_not_alnum lower_char_underscore lower_char_alnum).
    apply fmt_lower.
  - change (WORD_PATTERN KebabCase)
      with (delimited is_hyphen alnum_underscore).
    rewrite (@findall_delimited_lower is_hyphen alnum_underscore
               hyphen_not_word_char lower_char_hyphen lower_char_word_char).
    apply fmt_lower.
Qed.

Lemma convert_case_blind_witness :
  convert (py "my_variable_name") SnakeCase CamelCase
  = convert (py "MY_Variable_NAME") SnakeCase CamelCase.
Proof.
  apply (@convert_case_blind (py "MY_Variable_NAME") SnakeCase CamelCase);
    [reflexivity | discriminate].
Defined.


(** * Further properties of utils/setdefault.py *)

(** X10: in the module as it is, a call with a value and a default that are
    both there and with any of the three merge flags set raises
    [NameError], whatever the types of the two and whatever target type is
    given: the merge the call goes to starts with the test of the type
    against a name that is not bound.  The heap is as it was. *)
Theorem setdefault_shipped_merge_raises (value default : val)
    (cls : option pyclass) (merge_lists merge_sets merge_dicts : bool)
    (depth : Z) (h : heap) :
  value <> VNone ->
  default <> VNone ->
  defined_in h value = true ->
  merge_lists || merge_sets || merge_dicts = true ->
  setdefault shipped value default cls
    merge_lists merge_sets merge_dicts depth h
  = (Raise NameError, h).
Proof.
  intros Hv Hd Hdef Hf.
  destruct (requested merge_lists merge_sets merge_dicts) as [a |] eqn:Hr.
  - now apply (@setdefault_merge_unbound shipped value default cls
                 merge_lists merge_sets merge_dicts depth h a).
  - unfold requested in Hr.
    destruct merge_dicts, merge_lists, merge_sets; discriminate.
Qed.

(** X11: with no merge flag set and both arguments there, the result is
    [value] itself, for any names of the module: no name is looked up, and
    the target type, if one is given, is not applied to [value]. *)
Theorem setdefault_no_flag (g : globals) (value default : val)
    (cls : option pyclass) (depth : Z) (h : heap) :
  value <> VNone ->
  default <> VNone ->
  defined_in h value = true ->
  setdefault g value default cls false false false depth h
  = (Ok value, h).
Proof.
  intros Hv Hd Hdef.
  destruct (effective_defined cls value h Hdef) as [c He].
  rewrite (@setdefault_both g _ _ _ _ _ _ _ _ c);
    [reflexivity | now destruct value | now destruct default | exact He].
Qed.

(** X12: with [merge_lists] alone, a call on two lists that have two
    elements or more together raises, for any names of the module: with
    [MutableSequence] not bound, as it is in the module, the test of the
    type raises [NameError]; with it bound, [list] is called on the elements
    as that many arguments and raises [TypeError]. *)
Theorem setdefault_merge_lists_general (g : globals) (lv ld : loc)
    (vs ds : list val) (h : heap) (depth : Z) :
  nth_error h lv = Some (OList vs) ->
  nth_error h ld = Some (OList ds) ->
  2 <= List.length (ds ++ vs) ->
  setdefault g (VRef lv) (VRef ld) None true false false depth h
  = (Raise (if g_abc g MutableSequence then TypeError else NameError), h).
Proof.
  intros Hv Hd Hlen.
  rewrite (@setdefault_both g _ _ _ _ _ _ _ _ list_class);
    [| reflexivity | reflexivity
     | simpl; unfold bind, deref; now rewrite Hv].
  unfold _setdefault_list, bind, issubclass_named.
  destruct (g_abc g MutableSequence); [| reflexivity].
  change (issubclass list_class MutableSequence) with true.
  cbn [iterate]. unfold bind, deref.
  change (ret true h) with (Ok true, h). cbv beta iota.
  rewrite Hd. unfold ret at 1. rewrite Hv. unfold ret at 1.
  cbn [cls_call list_class].
  destruct (ds ++ vs) as [| x [| y t]]; simpl in *; try lia. reflexivity.
Qed.


(** X14: the four entry points [setdefault.merge_all],
    [setdefault.merge_dicts], [setdefault.merge_lists] and
    [setdefault.merge_sets] each set a merge flag, so in the module as it
    is each of them raises [NameError] as soon as [value] and [default] are
    both there, whatever the other flags, the target type and the depth. *)
Theorem setdefault_entry_points_raise (value default : val)
    (cls : option pyclass) (merge_lists merge_sets merge_dicts : bool)
    (depth : Z) (h : heap) :
  value <> VNone ->
  default <> VNone ->
  defined_in h value = true ->
  _setdefault_all shipped value default cls h = (Raise NameError, h)
  /\ setdefault_merge_dicts shipped value default cls
       merge_lists merge_sets depth h = (Raise NameError, h)
  /\ setdefault_merge_lists shipped value default cls
       merge_sets merge_dicts depth h = (Raise NameError, h)
  /\ setdefault_merge_sets shipped value default cls
       merge_lists merge_dicts depth h = (Raise NameError, h).
Proof.
  intros Hv Hd Hdef.
  assert (R : forall ml ms md a,
             requested ml ms md = Some a ->
             setdefault shipped value default cls ml ms md depth h
             = (Raise NameError, h)).
  { intros ml ms md a Hr.
    now apply (@setdefault_merge_unbound shipped value default cls
                 ml ms md depth h a). }
  unfold _setdefault_all, setdefault_merge_dicts, setdefault_merge_lists,
    setdefault_merge_sets.
  split; [| split; [| split]].
  - now apply (@setdefault_merge_unbound shipped value default cls
                 true true true 1 h Mapping).
  - now apply (R merge_lists merge_sets true Mapping).
  - destruct merge_dicts.
    + now apply (R true merge_sets true Mapping).
    + now apply (R true merge_sets false MutableSequence).
  - destruct merge_dicts.
    + now apply (R merge_lists true true Mapping).
    + destruct merge_lists.
      * now apply (R true true false MutableSequence).
      * now apply (R false true false Set_).
Qed.


(** ** The theorems at work *)

(** A dict and a dict for default, with [dict] as the target type and the
    merge of lists asked for: [NameError], although a dict is no list. *)
Lemma setdefault_shipped_merge_raises_witness :
  let h := [ODict [(S_ "a", VInt 1)]; ODict [(S_ "b", VInt 2)]] in
  setdefault shipped (VRef 0) (VRef 1) (Some dict_class)
    true false false 1 h
  = (Raise NameError, h).
Proof.
  intro h.
  apply (@setdefault_shipped_merge_raises (VRef 0) (VRef 1)
           (Some dict_class) true false false 1 h);
    [discriminate | discriminate | reflexivity | reflexivity].
Defined.

(** A list with [set] as the target type and no flag: the list itself. *)
Lemma setdefault_no_flag_witness :
  let h := [OList [VInt 1; VInt 1]; OList [VInt 0]] in
  setdefault shipped (VRef 0) (VRef 1) (Some set_class)
    false false false 1 h
  = (Ok (VRef 0), h).
Proof.
  intro h.
  apply (@setdefault_no_flag shipped (VRef 0) (VRef 1) (Some set_class)
           1 h); [discriminate | discriminate | reflexivity].
Defined.

(** Two lists of one element each: [NameError] in the module as it is,
    [TypeError] with the names bound. *)
Lemma setdefault_merge_lists_general_witness :
  let h := [OList [VInt 1]; OList [VInt 0]] in
  setdefault shipped (VRef 0) (VRef 1) None true false false 1 h
  = (Raise NameError, h)
  /\ setdefault (bound (merge_mappings_spec 1000 1)) (VRef 0) (VRef 1)
       None true false false 1 h
     = (Raise TypeError, h).
Proof.
  intro h. split.
  - apply (@setdefault_merge_lists_general shipped 0 1 [VInt 1] [VInt 0]
             h 1); [reflexivity | reflexivity | simpl; lia].
  - apply (@setdefault_merge_lists_general
             (bound (merge_mappings_spec 1000 1)) 0 1
             [VInt 1] [VInt 0] h 1); [reflexivity | reflexivity | simpl; lia].
Defined.


(** The four entry points on two dicts. *)
Lemma setdefault_entry_points_raise_witness :
  let h := [ODict [(S_ "a", VInt 1)];
            ODict [(S_ "a", VInt 2); (S_ "b", VInt 3)]] in
  _setdefault_all shipped (VRef 0) (VRef 1) None h = (Raise NameError, h)
  /\ setdefault_merge_dicts shipped (VRef 0) (VRef 1) None
       false false 1 h = (Raise NameError, h)
  /\ setdefault_merge_lists shipped (VRef 0) (VRef 1) None
       false false 1 h = (Raise NameError, h)
  /\ setdefault_merge_sets shipped (VRef 0) (VRef 1) None
       false false 1 h = (Raise NameError, h).
Proof.
  intro h.
  apply (@setdefault_entry_points_raise (VRef 0) (VRef 1) None
           false false false 1 h);
    [discriminate | discriminate | reflexivity].
Defined.

